(** * ykimusic: pitches and intervals

    A shallow embedding of [src/乐理/ykimusic.py] (classes [Pitch] and
    [Interval]) and the properties of its parsing, semitone arithmetic,
    equality, ordering and hashing.

    Conventions of the embedding.
    - A Python [str] is a [string]; one [ascii] stands for one code point
      below 256.  In that range the regex class [\d] is exactly ['0'..'9'].
      A one-character [str] (a letter, an interval quality) is an [ascii].
    - A Python [int] is a [Z]; [//] is [Z.div] and [%] is [Z.modulo] (both
      floor, as in Python, for the positive divisors 7 and 12 used here).
      [int(s)] on a run of decimal digits is the mathematical value when the
      run has at most 4300 digits, CPython's default limit
      ([sys.int_info.default_max_str_digits]), and raises ValueError past
      it.
    - An [Optional] is an [option]; a raised exception is the [Raise] branch
      of [result].  The guard [if name is None: raise ValueError] of the two
      [parse] functions has no counterpart: a [string] is never [None]. *)

From Stdlib Require Import ZArith String Ascii List Bool Lia.
From Stdlib Require Import DecimalString DecimalPos DecimalZ.
Import ListNotations.
Open Scope string_scope.
Open Scope Z_scope.

(** ** Python runtime fragments *)

Module Py.

(** The exceptions the two classes can raise. *)
Inductive exn : Type :=
| InvalidPitch (v : string)      (* ValueError(f"Invalid pitch '{v}'") *)
| InvalidInterval (v : string)   (* ValueError(f"Invalid interval '{v}'") *)
| CantGetStep                    (* ValueError(f"cant get step of '{self}'") *)
| KeyErrorInt (k : Z)            (* KeyError from map[mod_degree] *)
| KeyErrorStr (k : ascii)        (* KeyError from __LETTER_STEP[letter] *)
| NotInList (k : ascii)          (* ValueError from LETTERS.index(letter) *)
| IndexError (i : Z)             (* IndexError from LETTERS[res_index] *)
| IntTooManyDigits (digits : Z). (* ValueError from int(): over the digit limit *)

Inductive result (A : Type) : Type :=
| Ok (a : A)
| Raise (e : exn).
Arguments Ok {A} a.
Arguments Raise {A} e.

Definition bind {A B : Type} (r : result A) (k : A -> result B) : result B :=
  match r with
  | Ok a => k a
  | Raise e => Raise e
  end.

(** [lo <= c <= hi] on code points: a range [lo-hi] of a regex class. *)
Definition in_range (lo hi c : ascii) : bool :=
  (N_of_ascii lo <=? N_of_ascii c)%N && (N_of_ascii c <=? N_of_ascii hi)%N.

(** [\d] *)
Definition is_digit (c : ascii) : bool := in_range "0" "9" c.

Fixpoint all_digits (s : string) : bool :=
  match s with
  | EmptyString => true
  | String c r => is_digit c && all_digits r
  end.

Definition digit_value (c : ascii) : Z := Z.of_N (N_of_ascii c) - 48.

Fixpoint int_from (acc : Z) (s : string) : Z :=
  match s with
  | EmptyString => acc
  | String c r => int_from (10 * acc + digit_value c) r
  end.

(** The mathematical value of a run of decimal digits. *)
Definition int_value (s : string) : Z := int_from 0 s.

(** CPython's default limit on the number of digits that [int] converts. *)
Definition max_str_digits : Z := 4300.

(** [int(s)] for [s] a run of decimal digits: the value, or the ValueError
    of the digit limit when the run is longer than [max_str_digits]. *)
Definition int (s : string) : result Z :=
  let digits := Z.of_nat (String.length s) in
  if max_str_digits <? digits then Raise (IntTooManyDigits digits)
  else Ok (int_value s).

(** [str(n)] / [f'{n}'] for an [int].  CPython applies the digit limit to
    printing as well; the integers printed by the two classes are the one
    digit of [single_octave] and the octave plus offset of [__add__], the
    latter within the limit as long as the accidental run of the pitch has
    fewer than 10^4299 symbols. *)
Definition str_of_int (n : Z) : string := NilZero.string_of_int (Z.to_int n).

(** [s.count(c)] for a one-character [c]. *)
Fixpoint count (c : ascii) (s : string) : Z :=
  match s with
  | EmptyString => 0
  | String d r => (if Ascii.eqb d c then 1 else 0) + count c r
  end.

(** [c * n] for a one-character [c]: empty when [n <= 0]. *)
Fixpoint replicate (n : nat) (c : ascii) : string :=
  match n with
  | O => EmptyString
  | S k => String c (replicate k c)
  end.

Definition repeat_char (c : ascii) (n : Z) : string := replicate (Z.to_nat n) c.

(** [c.upper()] for an ASCII letter. *)
Definition upper (c : ascii) : ascii :=
  if in_range "a" "z" c then ascii_of_N (N_of_ascii c - 32) else c.

(** [k in (a, b, ...)] on integers. *)
Definition mem (k : Z) (l : list Z) : bool := existsb (Z.eqb k) l.

(** The longest prefix of [s] made of the character [c], and what follows:
    the greedy match of [c*]. *)
Fixpoint span (c : ascii) (s : string) : string * string :=
  match s with
  | EmptyString => (EmptyString, EmptyString)
  | String d r =>
      if Ascii.eqb d c
      then let (run, rest) := span c r in (String d run, rest)
      else (EmptyString, s)
  end.

(** Whether [s] begins with the character [c]. *)
Definition head_is (c : ascii) (s : string) : bool :=
  match s with
  | EmptyString => false
  | String d _ => Ascii.eqb d c
  end.

End Py.

Notation "x <- r ;; k" := (Py.bind r (fun x => k))
  (at level 61, r at next level, right associativity).

(** ** class Interval *)

Module Interval.
Import Py.

Record t : Type := mk {
  accidental : ascii;   (* self.__accidental: the quality *)
  degree : Z            (* self.__degree *)
}.

(** The character class [[Mm+-ADP]] of [REGEX]: inside a class, [+-A] is the
    range from ['+'] (43) to ['A'] (65). *)
Definition quality_char (c : ascii) : bool :=
  Ascii.eqb c "M" || Ascii.eqb c "m" || in_range "+" "A" c
  || Ascii.eqb c "D" || Ascii.eqb c "P".

(** [Interval.parse]: [re.fullmatch(r'([Mm+-ADP])(\d+)', name)], the aliases
    [+] and [-], [int(degree)] and the Perfect check.  [Ok None] is the
    returned [None] of a text that does not match; [int] raises, before the
    Perfect check, when the digits are more than the limit.

    Domain: the texts are those whose characters are code points below 256,
    on which [\d] is ['0'..'9'].  Python's [\d] also matches the decimal
    digits of other scripts, which lie above 255: texts holding such a
    character are not values of [string] and nothing is stated about
    them. *)
Definition parse (name : string) : result (option (ascii * Z)) :=
  match name with
  | EmptyString => Ok None
  | String q ds =>
      if quality_char q && negb (String.eqb ds "") && all_digits ds then
        let accidental :=
          if Ascii.eqb q "+" then "A"%char
          else if Ascii.eqb q "-" then "D"%char
          else q in
        degree <- int ds ;;
        if negb (mem (degree mod 7) [1; 4; 5]) && Ascii.eqb accidental "P"
        then Ok None
        else Ok (Some (accidental, degree))
      else Ok None
  end.

(** [Interval.__init__]; a parsed pair is a non-empty tuple, hence truthy;
    an error of [parse] goes through. *)
Definition init (v : string) : result t :=
  result <- parse v ;;
  match result with
  | None => Raise (InvalidInterval v)
  | Some (accidental, degree) => Ok (mk accidental degree)
  end.

(** The dict [map] of [Interval.step], in source order. *)
Definition map : list (Z * Z) :=
  [ (1, 0); (4, 5); (5, 7);
    (2, 2); (3, 4); (6, 9); (7, 11); (8, 12) ].

Fixpoint lookup (m : list (Z * Z)) (k : Z) : option Z :=
  match m with
  | [] => None
  | (k', v) :: r => if k' =? k then Some v else lookup r k
  end.

(** [map[k]] *)
Definition getitem (m : list (Z * Z)) (k : Z) : result Z :=
  match lookup m k with
  | Some v => Ok v
  | None => Raise (KeyErrorInt k)
  end.

Definition mod_degree (self : t) : Z :=
  if 8 <? degree self then (degree self - 8) mod 7 else degree self.

(** [Interval.step] *)
Definition step (self : t) : result Z :=
  let octaves := degree self / 7 - 1 in
  let mod_degree := mod_degree self in
  base <- getitem map mod_degree ;;
  let res := base + octaves * 12 in
  if mem mod_degree [1; 4; 5; 8] then
    if Ascii.eqb (accidental self) "P" then Ok res
    else if Ascii.eqb (accidental self) "A" then Ok (res + 1)
    else Ok (res - 1)
  else
    if Ascii.eqb (accidental self) "M" then Ok res
    else if Ascii.eqb (accidental self) "m" then Ok (res - 1)
    else if Ascii.eqb (accidental self) "A" then Ok (res + 1)
    else if Ascii.eqb (accidental self) "D" then Ok (res - 2)
    else Raise CantGetStep.

(** [Interval.single_octave] *)
Definition single_octave (self : t) : result t :=
  if degree self <=? 8 then Ok self
  else init (String (accidental self) (str_of_int ((degree self - 8) mod 7))).

(** [Interval.__eq__] on two intervals *)
Definition eq (self value : t) : bool :=
  Ascii.eqb (accidental self) (accidental value)
  && (degree self =? degree value).

(** [Interval.__lt__] on two intervals *)
Definition lt (self value : t) : result bool :=
  a <- step self ;;
  b <- step value ;;
  Ok (a <? b).

Section Hash.
(** Python's [hash] on the tuple [(accidental, degree)]: some function of
    the tuple's value. *)
Variable tuple_hash : ascii * Z -> Z.

(** [Interval.__hash__] *)
Definition hash (self : t) : Z := tuple_hash (accidental self, degree self).

End Hash.

(** [Interval.inverted]: the property evaluates [self.single_octave], binds
    it to a local and ends; the value of the call is [None]. *)
Definition inverted (self : t) : result (option t) :=
  single_self <- single_octave self ;;
  Ok None.

(** An interval is validly constructed when [Interval(v)] returns it. *)
Definition constructed (i : t) : Prop := exists v, init v = Ok i.

End Interval.

(** ** class Pitch *)

Module Pitch.
Import Py.

Record t : Type := mk {
  letter : ascii;       (* self.__letter *)
  accidental : string;  (* self.__accidental: the accidental group, never None *)
  octave : option Z     (* self.__octave *)
}.

(** [Pitch.__LETTER_STEP] *)
Definition LETTER_STEP : list (ascii * Z) :=
  [ ("C"%char, 0); ("D"%char, 2); ("E"%char, 4); ("F"%char, 5);
    ("G"%char, 7); ("A"%char, 9); ("B"%char, 11) ].

(** [Pitch.LETTERS] *)
Definition LETTERS : list ascii :=
  [ "C"%char; "D"%char; "E"%char; "F"%char; "G"%char; "A"%char; "B"%char ].

Fixpoint lookup (m : list (ascii * Z)) (k : ascii) : option Z :=
  match m with
  | [] => None
  | (k', v) :: r => if Ascii.eqb k' k then Some v else lookup r k
  end.

(** [d[k]] on a dict keyed by letters *)
Definition getitem (m : list (ascii * Z)) (k : ascii) : result Z :=
  match lookup m k with
  | Some v => Ok v
  | None => Raise (KeyErrorStr k)
  end.

Fixpoint index_from (i : Z) (l : list ascii) (k : ascii) : option Z :=
  match l with
  | [] => None
  | x :: r => if Ascii.eqb x k then Some i else index_from (i + 1) r k
  end.

(** [l.index(k)] *)
Definition list_index (l : list ascii) (k : ascii) : result Z :=
  match index_from 0 l k with
  | Some i => Ok i
  | None => Raise (NotInList k)
  end.

(** [l[i]], a negative [i] counting from the end *)
Definition list_getitem (l : list ascii) (i : Z) : result ascii :=
  let n := Z.of_nat (List.length l) in
  let j := if i <? 0 then i + n else i in
  if (0 <=? j) && (j <? n)
  then match nth_error l (Z.to_nat j) with
       | Some x => Ok x
       | None => Raise (IndexError i)
       end
  else Raise (IndexError i).

(** The character class [[CDEFGABcdefgab]] *)
Definition letter_char (c : ascii) : bool :=
  existsb (Ascii.eqb c) (list_ascii_of_string "CDEFGABcdefgab").

(** What [([0-7])?] followed by the end of the text matches: the octave
    group, [None] when it does not take part.  [int(octave)] is on one
    digit, within the digit limit, so it is the value of the digit. *)
Definition octave_tail (s : string) : option (option Z) :=
  match s with
  | EmptyString => Some None
  | String d EmptyString =>
      if in_range "0" "7" d then Some (Some (int_value (String d EmptyString)))
      else None
  | String _ (String _ _) => None
  end.

(** [Pitch.parse]: [re.fullmatch(REGEX, name)], where [REGEX] is the letter
    class, then the accidental group (a run of [#] or else a run of [b],
    either possibly empty), then the optional octave group.  The run of [#]
    is tried first, at its longest; a shorter run leaves a [#] that neither
    the octave group nor the end of the text matches, so only the longest
    run is followed.  When that fails the run of [b] is tried the same
    way. *)
Definition parse (name : string) : option (ascii * string * option Z) :=
  match name with
  | EmptyString => None
  | String l rest =>
      if letter_char l then
        let (sharps, after_sharps) := span "#" rest in
        match octave_tail after_sharps with
        | Some octave => Some (upper l, sharps, octave)
        | None =>
            let (flats, after_flats) := span "b" rest in
            match octave_tail after_flats with
            | Some octave => Some (upper l, flats, octave)
            | None => None
            end
        end
      else None
  end.

(** [Pitch.__init__]; a parsed triple is a non-empty tuple, hence truthy. *)
Definition init (v : string) : result t :=
  match parse v with
  | None => Raise (InvalidPitch v)
  | Some (letter, accidental, octave) => Ok (mk letter accidental octave)
  end.

(** [Pitch.step]; the branch [accidental is None] is not reachable, the
    accidental group always takes part in a match. *)
Definition step (self : t) : result Z :=
  original_step <- getitem LETTER_STEP (letter self) ;;
  Ok (original_step - count "b" (accidental self)
      + count "#" (accidental self)).

(** [Pitch.index] *)
Definition index (self : t) : result Z := list_index LETTERS (letter self).

(** Truth value of [self.octave]: [None] and [0] are both falsy. *)
Definition truthy (o : option Z) : bool :=
  match o with
  | Some n => negb (n =? 0)
  | None => false
  end.

(** [f'{self.octave or ''}'] *)
Definition octave_or_empty (o : option Z) : string :=
  match o with
  | Some n => if truthy o then str_of_int n else EmptyString
  | None => EmptyString
  end.

(** [self.octave or d] *)
Definition octave_or (o : option Z) (d : Z) : Z :=
  match o with
  | Some n => if truthy o then n else d
  | None => d
  end.

(** [Pitch.__str__]; [self.accidental or ''] is the accidental itself. *)
Definition str (self : t) : string :=
  String (letter self) (accidental self ++ octave_or_empty (octave self)).

Definition option_eqb (a b : option Z) : bool :=
  match a, b with
  | Some x, Some y => x =? y
  | None, None => true
  | _, _ => false
  end.

(** [Pitch.__eq__] on two pitches *)
Definition eq (self value : t) : bool :=
  String.eqb (accidental self) (accidental value)
  && Ascii.eqb (letter self) (letter value)
  && option_eqb (octave self) (octave value).

(** [<] on pairs of integers, as Python compares tuples: by the first
    components when they differ, else by the second. *)
Definition tuple_lt (a b : Z * Z) : bool :=
  if fst a =? fst b then snd a <? snd b else fst a <? fst b.

(** [Pitch.__lt__] on two pitches *)
Definition lt (self value : t) : result bool :=
  s <- step self ;;
  s' <- step value ;;
  Ok (tuple_lt (octave_or (octave self) 4, s) (octave_or (octave value) 4, s')).

(** [Pitch.__add__] on an [Interval] *)
Definition add (self : t) (value : Interval.t) : result t :=
  s <- step self ;;
  vs <- Interval.step value ;;
  let res_step := (s + vs) mod 12 in
  let octave_offset := (s + vs) / 12 in
  i <- index self ;;
  let res_index := (i + Interval.degree value - 1) mod 7 in
  letter <- list_getitem LETTERS res_index ;;
  letter_step <- getitem LETTER_STEP letter ;;
  let step_diff := letter_step - res_step in
  let modifier :=
    if step_diff =? 0 then EmptyString
    else if 0 <? step_diff then repeat_char "b" step_diff
    else repeat_char "#" (- step_diff) in
  let octave_str :=
    match octave self with
    | Some n => if truthy (octave self) then str_of_int (n + octave_offset)
                else EmptyString
    | None => EmptyString
    end in
  init (String letter (modifier ++ octave_str)).

(** [Pitch.__add__] on a [str]: the interval is constructed first. *)
Definition add_str (self : t) (value : string) : result t :=
  v <- Interval.init value ;;
  add self v.

Section Hash.
(** Python's [hash] on the tuple [(accidental, letter, octave)]. *)
Variable tuple_hash : string * ascii * option Z -> Z.

(** [Pitch.__hash__] *)
Definition hash (self : t) : Z :=
  tuple_hash (accidental self, letter self, octave self).

End Hash.

(** The comparisons that [functools.total_ordering] derives from [__lt__]
    and [__eq__] on two pitches: [a > b] is [not a < b and a != b], [a <= b]
    is [a < b or a == b], [a >= b] is [not a < b]; [!=] is the default
    negation of [__eq__]. *)
Definition gt (self value : t) : result bool :=
  op_result <- lt self value ;;
  Ok (negb op_result && negb (eq self value)).

Definition le (self value : t) : result bool :=
  op_result <- lt self value ;;
  Ok (op_result || eq self value).

Definition ge (self value : t) : result bool :=
  op_result <- lt self value ;;
  Ok (negb op_result).

(** A pitch is validly constructed when [Pitch(v)] returns it. *)
Definition constructed (p : t) : Prop := exists v, init v = Ok p.

End Pitch.

(** ** The specification's own wording of two derived values

    These two definitions follow the text of the specification, not the
    source; they are what [Interval.step] and [Pitch.__lt__] are compared
    with below. *)

Module Spec.

Inductive quality : Type := Perfect | Major | Minor | Augmented | Diminished.

Definition quality_of (c : ascii) : option quality :=
  if Ascii.eqb c "P" then Some Perfect
  else if Ascii.eqb c "M" then Some Major
  else if Ascii.eqb c "m" then Some Minor
  else if Ascii.eqb c "A" then Some Augmented
  else if Ascii.eqb c "D" then Some Diminished
  else None.

(** Step 1: [octaves = degree // 7 - 1]. *)
Definition octaves (degree : Z) : Z := degree / 7 - 1.

(** Step 2: [degree] if [degree <= 8], else [(degree - 8) mod 7]. *)
Definition mod_degree (degree : Z) : Z :=
  if degree <=? 8 then degree else (degree - 8) mod 7.

(** Step 3: the fixed table. *)
Definition base (m : Z) : option Z :=
  match m with
  | 1 => Some 0
  | 2 => Some 2
  | 3 => Some 4
  | 4 => Some 5
  | 5 => Some 7
  | 6 => Some 9
  | 7 => Some 11
  | 8 => Some 12
  | _ => None
  end.

(** Steps 4 and 5: the adjustment of each listed quality on each of the two
    degree classes; [None] for a combination that is not listed. *)
Definition adjust (m : Z) (q : quality) : option Z :=
  if Py.mem m [1; 4; 5; 8] then
    match q with
    | Perfect => Some 0
    | Augmented => Some 1
    | Diminished => Some (-1)
    | Major | Minor => None
    end
  else if Py.mem m [2; 3; 6; 7] then
    match q with
    | Major => Some 0
    | Minor => Some (-1)
    | Augmented => Some 1
    | Diminished => Some (-2)
    | Perfect => None
    end
  else None.

(** Steps 1 to 5 together, on a quality symbol and a degree. *)
Definition step (c : ascii) (degree : Z) : option Z :=
  match quality_of c with
  | None => None
  | Some q =>
      let m := mod_degree degree in
      match base m, adjust m q with
      | Some b, Some a => Some (b + octaves degree * 12 + a)
      | _, _ => None
      end
  end.

(** The ordering key: the octave, 4 exactly when it is unspecified, and the
    step. *)
Definition order_key (octave : option Z) (step : Z) : Z * Z :=
  (match octave with Some n => n | None => 4 end, step).

(** Lexicographic [<] on keys. *)
Definition key_lt (a b : Z * Z) : bool :=
  (fst a <? fst b) || ((fst a =? fst b) && (snd a <? snd b)).

End Spec.

(** ** Properties *)

Import Py.

(** *** Intervals: parsing *)


Lemma int_within_limit (ds : string) :
  Z.of_nat (String.length ds) <= 4300 -> int ds = Ok (int_value ds).
Proof.
  intros H. unfold int, max_str_digits. cbv zeta.
  destruct (Z.ltb_spec 4300 (Z.of_nat (String.length ds))); [lia|reflexivity].
Qed.

Lemma int_past_limit (ds : string) :
  4300 < Z.of_nat (String.length ds) ->
  int ds = Raise (IntTooManyDigits (Z.of_nat (String.length ds))).
Proof.
  intros H. unfold int, max_str_digits. cbv zeta.
  destruct (Z.ltb_spec 4300 (Z.of_nat (String.length ds))); [reflexivity|lia].
Qed.





(** *** Intervals: the semitone distance *)

Lemma spec_mod_degree_eq (i : Interval.t) :
  Spec.mod_degree (Interval.degree i) = Interval.mod_degree i.
Proof.
  unfold Spec.mod_degree, Interval.mod_degree.
  destruct (Z.leb_spec (Interval.degree i) 8), (Z.ltb_spec 8 (Interval.degree i));
    (reflexivity || lia).
Qed.

(** The table of the specification and the dict of the source hold the same
    entries. *)
Lemma base_lookup (m : Z) : Spec.base m = Interval.lookup Interval.map m.
Proof.
  destruct m as [|p|p]; [reflexivity| |reflexivity].
  do 4 (try destruct p as [p|p|]); reflexivity.
Qed.

Lemma quality_of_some (c : ascii) (q : Spec.quality) :
  Spec.quality_of c = Some q ->
  match q with
  | Spec.Perfect => c = "P"%char
  | Spec.Major => c = "M"%char
  | Spec.Minor => c = "m"%char
  | Spec.Augmented => c = "A"%char
  | Spec.Diminished => c = "D"%char
  end.
Proof.
  unfold Spec.quality_of.
  repeat match goal with
  | |- context [Ascii.eqb c ?k] =>
      destruct (Ascii.eqb_spec c k) as [->|_]; [intros [= <-]; reflexivity|]
  end.
  discriminate.
Qed.

(** On the listed combinations the code follows the algorithm: whenever the
    algorithm of the specification (octaves, folded degree, table,
    adjustment of a listed quality on its degree class) yields a number for
    the quality and degree of an interval, [Interval.step] returns exactly
    that number. *)
Theorem step_follows_spec (i : Interval.t) (z : Z) :
  Spec.step (Interval.accidental i) (Interval.degree i) = Some z ->
  Interval.step i = Ok z.
Proof.
  destruct i as [c d]. unfold Spec.step. cbn [Interval.accidental Interval.degree].
  destruct (Spec.quality_of c) as [q|] eqn:Hq; [|discriminate].
  apply quality_of_some in Hq.
  pose proof (spec_mod_degree_eq (Interval.mk c d)) as Hm.
  cbn [Interval.degree] in Hm. rewrite Hm.
  unfold Interval.step, Interval.getitem. cbn [Interval.accidental Interval.degree].
  rewrite <- base_lookup.
  destruct (Spec.base _) as [b|] eqn:Hb; [|discriminate].
  unfold Spec.adjust, Spec.octaves. cbn [bind].
  destruct (mem _ [1; 4; 5; 8]).
  - destruct q; subst c; intros [= <-]; cbn; f_equal; lia.
  - destruct (mem _ [2; 3; 6; 7]); [|discriminate].
    destruct q; subst c; intros [= <-]; cbn; f_equal; lia.
Qed.

(** On [Interval("A4")] both give 5 + (-1) * 12 + 1. *)
Lemma step_follows_spec_witness :
  Spec.step "A" 4 = Some (-6) /\ Interval.step (Interval.mk "A" 4) = Ok (-6).
Proof.
  split; [reflexivity|].
  apply (step_follows_spec (Interval.mk "A" 4) (-6)). reflexivity.
Defined.

(** C2: not every constructed interval gets its step from the algorithm.
    [Interval("M1")], [Interval("M9")] and [Interval("M13")] are Major on a
    perfect-eligible folded degree, for which the algorithm lists no
    adjustment, and [step] returns -13, -1 and 6 through the last [return]
    of that branch; [Interval("P15")] folds to the degree 0, which the table
    lacks, and [step] stops on the lookup. *)
Theorem step_outside_listed_cases :
  (Interval.init "M1" = Ok (Interval.mk "M" 1) /\
   Spec.step "M" 1 = None /\
   Interval.step (Interval.mk "M" 1) = Ok (-13)) /\
  (Interval.init "M9" = Ok (Interval.mk "M" 9) /\
   Spec.step "M" 9 = None /\
   Interval.step (Interval.mk "M" 9) = Ok (-1)) /\
  (Interval.init "M13" = Ok (Interval.mk "M" 13) /\
   Spec.step "M" 13 = None /\
   Interval.step (Interval.mk "M" 13) = Ok 6) /\
  (Interval.init "P15" = Ok (Interval.mk "P" 15) /\
   Spec.step "P" 15 = None /\
   Interval.step (Interval.mk "P" 15) = Raise (KeyErrorInt 0)).
Proof. repeat split; reflexivity. Qed.

(** C1: on the four simple intervals [Interval.step] returns -8, -5, -7 and
    -11, each an octave (12) below the distances 4, 7, 5 and 1 of a major
    third, a perfect fifth, a perfect fourth and a minor second: for a degree
    below 7, [degree // 7 - 1] is -1. *)
Theorem simple_interval_steps :
  (i <- Interval.init "M3" ;; Interval.step i) = Ok (-8) /\
  (i <- Interval.init "P5" ;; Interval.step i) = Ok (-5) /\
  (i <- Interval.init "P4" ;; Interval.step i) = Ok (-7) /\
  (i <- Interval.init "m2" ;; Interval.step i) = Ok (-11).
Proof. repeat split; reflexivity. Qed.

(** Every degree from 1 to 6 gets the octave count -1, degrees 7 and 8 get
    0. *)
Lemma octaves_of_simple_degree (d : Z) :
  1 <= d <= 8 -> Spec.octaves d = if d <? 7 then -1 else 0.
Proof.
  intros Hd. unfold Spec.octaves.
  destruct (Z.ltb_spec d 7).
  - rewrite Z.div_small; lia.
  - assert (d / 7 = 1) by (symmetry; apply (Z.div_unique d 7 1 (d - 7)); lia).
    lia.
Qed.

(** On the perfect-eligible class every quality other than [P] and [A]
    takes the last [return] of the branch, the Diminished one. *)
Lemma step_perfect_class_default (i : Interval.t) (b : Z) :
  Interval.lookup Interval.map (Interval.mod_degree i) = Some b ->
  mem (Interval.mod_degree i) [1; 4; 5; 8] = true ->
  Interval.accidental i <> "P"%char ->
  Interval.accidental i <> "A"%char ->
  Interval.step i = Ok (b + (Interval.degree i / 7 - 1) * 12 - 1).
Proof.
  intros Hb Hm HP HA. unfold Interval.step, Interval.getitem.
  rewrite Hb, Hm. cbn [bind].
  destruct (Ascii.eqb_spec (Interval.accidental i) "P"); [contradiction|].
  destruct (Ascii.eqb_spec (Interval.accidental i) "A"); [contradiction|].
  reflexivity.
Qed.

(** On the other degrees of the table a quality other than [M], [m], [A]
    and [D] reaches the [raise]. *)
Lemma step_imperfect_class_raises (i : Interval.t) (b : Z) :
  Interval.lookup Interval.map (Interval.mod_degree i) = Some b ->
  mem (Interval.mod_degree i) [1; 4; 5; 8] = false ->
  Spec.quality_of (Interval.accidental i) = None \/
  Interval.accidental i = "P"%char ->
  Interval.step i = Raise CantGetStep.
Proof.
  intros Hb Hm Hq. unfold Interval.step, Interval.getitem.
  rewrite Hb, Hm. cbn [bind].
  destruct Hq as [Hq | ->]; [|reflexivity].
  revert Hq. unfold Spec.quality_of.
  repeat match goal with
  | |- context [Ascii.eqb ?c ?k] => destruct (Ascii.eqb c k)
  end; intros Hq; (discriminate Hq || reflexivity).
Qed.

(** C9: [Interval("M1")] is constructed, Major on the perfect-eligible degree
    class 1, and its [step] returns the number -13 instead of raising; the
    same quality on an imperfect class, with no listed case either, does
    raise. *)
Theorem major_unison_step :
  Interval.init "M1" = Ok (Interval.mk "M" 1) /\
  Spec.step "M" 1 = None /\
  Interval.step (Interval.mk "M" 1) = Ok (-13) /\
  Interval.step (Interval.mk "M" 1) = Interval.step (Interval.mk "D" 1) /\
  (i <- Interval.init "P11" ;; Interval.step i) = Raise CantGetStep.
Proof. repeat split; reflexivity. Qed.

(** *** Intervals: reduction to a single octave *)

Lemma single_octave_simple (i : Interval.t) :
  Interval.degree i <= 8 -> Interval.single_octave i = Ok i.
Proof.
  intros H. unfold Interval.single_octave.
  destruct (Z.leb_spec (Interval.degree i) 8); [reflexivity|lia].
Qed.

Lemma init_inv (v : string) (i : Interval.t) :
  Interval.init v = Ok i ->
  Interval.parse v = Ok (Some (Interval.accidental i, Interval.degree i)).
Proof.
  unfold Interval.init.
  destruct (Interval.parse v) as [[[a d]|]|e]; cbn [bind]; try discriminate.
  now intros [= <-].
Qed.

(** What a successful [Interval.parse] says about the text. *)
Lemma interval_parse_inv (v : string) (a : ascii) (d : Z) :
  Interval.parse v = Ok (Some (a, d)) ->
  exists q ds, v = String q ds /\ Interval.quality_char q = true /\
    ds <> "" /\ all_digits ds = true /\
    Z.of_nat (String.length ds) <= 4300 /\ d = int_value ds /\
    a = (if Ascii.eqb q "+" then "A"%char
         else if Ascii.eqb q "-" then "D"%char else q) /\
    (a = "P"%char -> mem (d mod 7) [1; 4; 5] = true).
Proof.
  unfold Interval.parse. destruct v as [|q ds]; [discriminate|].
  destruct (Interval.quality_char q) eqn:Hq; [|discriminate].
  destruct (String.eqb_spec ds "") as [->|Hne]; [discriminate|].
  destruct (all_digits ds) eqn:Hds; [|discriminate].
  cbn [negb andb].
  destruct (Z.le_gt_cases (Z.of_nat (String.length ds)) 4300) as [Hle|Hgt];
    [|rewrite int_past_limit by lia; discriminate].
  rewrite (int_within_limit ds Hle). cbn [bind].
  intros H. exists q, ds.
  destruct (mem (int_value ds mod 7) [1; 4; 5]) eqn:Hm; cbn [negb andb] in H.
  - injection H as <- <-. repeat split; auto.
  - destruct (Ascii.eqb_spec
                (if Ascii.eqb q "+" then "A"%char
                 else if Ascii.eqb q "-" then "D"%char else q) "P")
      as [E|E]; [discriminate|].
    injection H as <- <-. repeat split; auto; intros; contradiction.
Qed.

(** The quality of a constructed interval is a character of the class other
    than the two aliases. *)
Lemma constructed_quality (i : Interval.t) :
  Interval.constructed i ->
  Interval.quality_char (Interval.accidental i) = true /\
  Interval.accidental i <> "+"%char /\
  Interval.accidental i <> "-"%char /\
  (Interval.accidental i = "P"%char ->
   mem (Interval.degree i mod 7) [1; 4; 5] = true).
Proof.
  intros [v Hv]. apply init_inv in Hv.
  apply interval_parse_inv in Hv
    as (q & ds & _ & Hq & _ & _ & _ & _ & Ha & HP).
  split; [|split; [|split; [|exact HP]]]; rewrite Ha;
    (destruct (Ascii.eqb_spec q "+") as [|Hplus];
     [|destruct (Ascii.eqb_spec q "-") as [|Hminus]]);
    first [reflexivity | discriminate | assumption].
Qed.

(** Every constructed interval of degree 9 is reduced to degree 1. *)
Lemma single_octave_ninth (i : Interval.t) :
  Interval.constructed i ->
  Interval.degree i = 9 ->
  Interval.single_octave i = Ok (Interval.mk (Interval.accidental i) 1).
Proof.
  intros Hc Hd. destruct (constructed_quality i Hc) as (Hq & Hplus & Hminus & _).
  unfold Interval.single_octave. rewrite Hd.
  change (9 <=? 8) with false. cbv iota.
  change (str_of_int ((9 - 8) mod 7)) with "1".
  unfold Interval.init, Interval.parse. rewrite Hq.
  change (negb (String.eqb "1" "") && all_digits "1") with true.
  cbn [andb].
  destruct (Ascii.eqb_spec (Interval.accidental i) "+"); [contradiction|].
  destruct (Ascii.eqb_spec (Interval.accidental i) "-"); [contradiction|].
  reflexivity.
Qed.

(** C7: [Interval("M9").single_octave] is the interval of quality [M] and
    degree 1, [(9 - 8) % 7], not degree 2, and it differs from
    [Interval("M2")]; an interval of degree at most 8, such as
    [Interval("M2")], is returned as it is. *)
Theorem single_octave_of_major_ninth :
  (i <- Interval.init "M9" ;; Interval.single_octave i) = Ok (Interval.mk "M" 1) /\
  (i <- Interval.init "M9" ;; r <- Interval.single_octave i ;;
   m2 <- Interval.init "M2" ;; Ok (Interval.eq r m2)) = Ok false /\
  (i <- Interval.init "M2" ;; Interval.single_octave i) = Interval.init "M2".
Proof. repeat split; reflexivity. Qed.

(** C4: [Interval("P15")] is constructed, yet its [step] stops on the lookup
    [map[0]] (a KeyError) and its [single_octave] stops in the constructor on
    the text [P0]; comparing it by [<] stops the same way. *)
Theorem compound_interval_not_total :
  Interval.init "P15" = Ok (Interval.mk "P" 15) /\
  Interval.step (Interval.mk "P" 15) = Raise (KeyErrorInt 0) /\
  Interval.single_octave (Interval.mk "P" 15) = Raise (InvalidInterval "P0") /\
  Interval.lt (Interval.mk "P" 15) (Interval.mk "P" 15) = Raise (KeyErrorInt 0).
Proof. repeat split; reflexivity. Qed.

(** *** Pitches: what the constructor accepts *)

Lemma span_replicate (c : ascii) (n : nat) (t : string) :
  head_is c t = false -> span c (replicate n c ++ t) = (replicate n c, t).
Proof.
  intros Ht. induction n as [|n IH]; simpl.
  - destruct t as [|d r]; [reflexivity|]. simpl in Ht |- *. now rewrite Ht.
  - now rewrite Ascii.eqb_refl, IH.
Qed.

Lemma span_inv (c : ascii) (s run rest : string) :
  span c s = (run, rest) ->
  run = replicate (String.length run) c /\ s = run ++ rest /\
  head_is c rest = false.
Proof.
  revert run rest. induction s as [|d r IH]; intros run rest H; simpl in H.
  - injection H as <- <-. repeat split.
  - destruct (Ascii.eqb_spec d c) as [->|Hd].
    + destruct (span c r) as [run' rest'] eqn:Hs. injection H as <- <-.
      destruct (IH run' rest' eq_refl) as (Hrun & Hr & Hrest).
      simpl. repeat split; [now rewrite <- Hrun | now rewrite <- Hr | exact Hrest].
    + injection H as <- <-. repeat split. simpl.
      now apply Ascii.eqb_neq.
Qed.

Lemma octave_tail_inv (s : string) (o : option Z) :
  Pitch.octave_tail s = Some o ->
  (s = "" /\ o = None) \/
  (exists z, 0 <= z <= 7 /\ o = Some z /\ s = str_of_int z).
Proof.
  destruct s as [|d [|e r]]; simpl; intros H; try discriminate.
  - injection H as <-. now left.
  - destruct (in_range "0" "7" d) eqn:Hd; [|discriminate].
    injection H as <-. right.
    unfold in_range in Hd. apply andb_true_iff in Hd as [Hlo Hhi].
    apply N.leb_le in Hlo, Hhi.
    change (N_of_ascii "0") with 48%N in Hlo.
    change (N_of_ascii "7") with 55%N in Hhi.
    exists (Z.of_N (N_of_ascii d) - 48).
    assert (Hcases : (N_of_ascii d = 48 \/ N_of_ascii d = 49 \/
                      N_of_ascii d = 50 \/ N_of_ascii d = 51 \/
                      N_of_ascii d = 52 \/ N_of_ascii d = 53 \/
                      N_of_ascii d = 54 \/ N_of_ascii d = 55)%N) by lia.
    repeat split; try lia.
    rewrite <- (ascii_N_embedding d).
    repeat (destruct Hcases as [-> | Hcases]; [reflexivity|]).
    now rewrite Hcases.
Qed.

Lemma octave_tail_digit (z : Z) :
  1 <= z <= 7 ->
  Pitch.octave_tail (str_of_int z) = Some (Some z) /\
  head_is "#" (str_of_int z) = false /\ head_is "b" (str_of_int z) = false.
Proof.
  intros Hz.
  assert (Hcases : z = 1 \/ z = 2 \/ z = 3 \/ z = 4 \/ z = 5 \/ z = 6 \/ z = 7)
    by lia.
  repeat (destruct Hcases as [-> | Hcases]; [repeat split|]).
  subst z. repeat split.
Qed.

Lemma letter_char_upper (l : ascii) :
  Pitch.letter_char l = true -> In (upper l) Pitch.LETTERS.
Proof.
  unfold Pitch.letter_char. simpl existsb. intros H.
  repeat (apply orb_true_iff in H as [H | H];
          [apply Ascii.eqb_eq in H; subst l; simpl; tauto|]).
  discriminate.
Qed.

Lemma letters_canonical (l : ascii) :
  In l Pitch.LETTERS -> Pitch.letter_char l = true /\ upper l = l.
Proof.
  simpl. intros H.
  repeat (destruct H as [<- | H]; [split; reflexivity|]).
  contradiction.
Qed.

(** The fields of a constructed pitch: a letter of [LETTERS], a run of
    sharps or a run of flats, no octave or one from 0 to 7. *)
Lemma constructed_fields (p : Pitch.t) :
  Pitch.constructed p ->
  In (Pitch.letter p) Pitch.LETTERS /\
  (exists n, Pitch.accidental p = replicate n "#" \/
             Pitch.accidental p = replicate n "b") /\
  (Pitch.octave p = None \/
   exists z, 0 <= z <= 7 /\ Pitch.octave p = Some z).
Proof.
  intros [v Hv]. unfold Pitch.init in Hv.
  destruct (Pitch.parse v) as [[[l a] o]|] eqn:Hp; [|discriminate].
  injection Hv as <-. cbn [Pitch.letter Pitch.accidental Pitch.octave].
  unfold Pitch.parse in Hp. destruct v as [|c rest]; [discriminate|].
  destruct (Pitch.letter_char c) eqn:Hc; [|discriminate].
  assert (Hoct : forall s o', Pitch.octave_tail s = Some o' ->
            o' = None \/ exists z, 0 <= z <= 7 /\ o' = Some z).
  { intros s o' H. apply octave_tail_inv in H as [[_ ->] | (z & Hz & -> & _)];
      [now left | right; now exists z]. }
  destruct (span "#" rest) as [sharps after] eqn:Hs.
  destruct (Pitch.octave_tail after) as [o1|] eqn:Ho1.
  - injection Hp as <- <- <-. apply span_inv in Hs as (Hrun & _).
    split; [now apply letter_char_upper|]. split; [eauto|eauto].
  - destruct (span "b" rest) as [flats after'] eqn:Hf.
    destruct (Pitch.octave_tail after') as [o2|] eqn:Ho2; [|discriminate].
    injection Hp as <- <- <-. apply span_inv in Hf as (Hrun & _).
    split; [now apply letter_char_upper|]. split; [eauto|eauto].
Qed.

Lemma octave_or_empty_tail (o : option Z) :
  (o = None \/ exists z, 1 <= z <= 7 /\ o = Some z) ->
  Pitch.octave_tail (Pitch.octave_or_empty o) = Some o /\
  head_is "#" (Pitch.octave_or_empty o) = false /\
  head_is "b" (Pitch.octave_or_empty o) = false.
Proof.
  intros [-> | (z & Hz & ->)]; [repeat split|].
  unfold Pitch.octave_or_empty, Pitch.truthy.
  destruct (Z.eqb_spec z 0); [lia|]. cbn [negb].
  now apply octave_tail_digit.
Qed.

(** The canonical text of a letter, a run and an octave other than 0 parses
    back to these three. *)
Lemma parse_canonical (l c : ascii) (n : nat) (o : option Z) :
  In l Pitch.LETTERS ->
  c = "#"%char \/ c = "b"%char ->
  (o = None \/ exists z, 1 <= z <= 7 /\ o = Some z) ->
  Pitch.parse (String l (replicate n c ++ Pitch.octave_or_empty o)) =
    Some (l, replicate n c, o).
Proof.
  intros Hl Hc Ho.
  destruct (letters_canonical l Hl) as [Hlc Hup].
  destruct (octave_or_empty_tail o Ho) as (Htail & Hsharp & Hflat).
  unfold Pitch.parse. rewrite Hlc, Hup.
  destruct Hc as [-> | ->].
  - rewrite (span_replicate "#" n _ Hsharp). now rewrite Htail.
  - destruct n as [|k].
    + pose proof (span_replicate "#" 0 _ Hsharp) as Hs0.
      cbn [replicate append] in Hs0 |- *. now rewrite Hs0, Htail.
    + rewrite (span_replicate "b" (S k) _ Hflat).
      cbn [replicate append span].
      change (Ascii.eqb "b" "#") with false. cbv iota.
      cbn [Pitch.octave_tail].
      destruct (replicate k "b" ++ Pitch.octave_or_empty o);
        [change (in_range "0" "7" "b") with false; cbv iota|];
        now rewrite Htail.
Qed.

(** What the round trip through [__str__] gives on any constructed pitch:
    the same letter and accidental, and the octave unless it is 0, which is
    printed as no octave. *)
Lemma str_reparsed (p : Pitch.t) :
  Pitch.constructed p ->
  Pitch.init (Pitch.str p) =
    Ok (Pitch.mk (Pitch.letter p) (Pitch.accidental p)
          (if Pitch.truthy (Pitch.octave p) then Pitch.octave p else None)).
Proof.
  intros Hc. destruct (constructed_fields p Hc) as (Hl & (n & Ha) & Ho).
  destruct p as [l a o]. cbn [Pitch.letter Pitch.accidental Pitch.octave] in *.
  set (o' := if Pitch.truthy o then o else None).
  assert (Hs : Pitch.octave_or_empty o = Pitch.octave_or_empty o').
  { subst o'. destruct o as [z|]; [|reflexivity].
    unfold Pitch.octave_or_empty.
    destruct (Pitch.truthy (Some z)) eqn:Ht; [now rewrite Ht | reflexivity]. }
  assert (Ho' : o' = None \/ exists z, 1 <= z <= 7 /\ o' = Some z).
  { subst o'. destruct Ho as [-> | (z & Hz & ->)]; [now left|].
    unfold Pitch.truthy. destruct (Z.eqb_spec z 0); cbn [negb];
      [now left | right; exists z; split; [lia|reflexivity]]. }
  unfold Pitch.str, Pitch.init.
  cbn [Pitch.letter Pitch.accidental Pitch.octave]. rewrite Hs.
  destruct Ha as [-> | ->];
    rewrite parse_canonical by (auto; tauto); reflexivity.
Qed.

(** X21: printing a constructed pitch whose octave is not 0 and constructing
    a pitch from the printed text gives the pitch back. *)
Lemma str_roundtrip (p : Pitch.t) :
  Pitch.constructed p ->
  Pitch.octave p <> Some 0 ->
  Pitch.init (Pitch.str p) = Ok p.
Proof.
  intros Hc H0. rewrite (str_reparsed p Hc). destruct p as [l a [z|]];
    cbn [Pitch.letter Pitch.accidental Pitch.octave Pitch.truthy] in *;
    [|reflexivity].
  destruct (Z.eqb_spec z 0) as [->|]; [contradiction|reflexivity].
Qed.

(** C5: the text [C0] is accepted, with octave 0; [__str__] prints it as [C],
    since [self.octave or ''] takes 0 for an absent octave; the pitch
    constructed from [C] has no octave and is not equal to the original. *)
Theorem octave_zero_not_roundtrip :
  Pitch.init "C0" = Ok (Pitch.mk "C" "" (Some 0)) /\
  Pitch.str (Pitch.mk "C" "" (Some 0)) = "C" /\
  Pitch.init "C" = Ok (Pitch.mk "C" "" None) /\
  Pitch.eq (Pitch.mk "C" "" None) (Pitch.mk "C" "" (Some 0)) = false.
Proof. repeat split; reflexivity. Qed.

(** *** Pitches: step, ordering, addition *)

(** [Pitch.step] and [Pitch.index] return on every constructed pitch: the
    letter is a key of the table and a member of the list. *)
Lemma pitch_step_total (p : Pitch.t) :
  Pitch.constructed p ->
  (exists base, Pitch.lookup Pitch.LETTER_STEP (Pitch.letter p) = Some base /\
     Pitch.step p =
       Ok (base - count "b" (Pitch.accidental p)
           + count "#" (Pitch.accidental p))) /\
  (exists i, 0 <= i < 7 /\ Pitch.index p = Ok i).
Proof.
  intros Hc. destruct (constructed_fields p Hc) as (Hl & _).
  unfold Pitch.step, Pitch.index, Pitch.getitem, Pitch.list_index.
  simpl in Hl.
  repeat (destruct Hl as [<- | Hl];
          [split; eexists; (split; [|reflexivity]); (reflexivity || lia)|]).
  contradiction.
Qed.

(** X22: [<] returns a boolean on every two constructed pitches: the letter
    of a constructed pitch is always a key of [__LETTER_STEP]. *)
Lemma pitch_lt_total (p q : Pitch.t) :
  Pitch.constructed p -> Pitch.constructed q ->
  exists b, Pitch.lt p q = Ok b.
Proof.
  intros Hp Hq.
  destruct (pitch_step_total p Hp) as [(bp & _ & Ep) _].
  destruct (pitch_step_total q Hq) as [(bq & _ & Eq) _].
  unfold Pitch.lt. rewrite Ep, Eq. cbn [bind]. eauto.
Qed.

Lemma tuple_lt_key_lt (a b : Z * Z) : Pitch.tuple_lt a b = Spec.key_lt a b.
Proof.
  unfold Pitch.tuple_lt, Spec.key_lt.
  destruct (Z.eqb_spec (fst a) (fst b)), (Z.ltb_spec (fst a) (fst b));
    cbn [orb andb]; (reflexivity || lia).
Qed.

(** When neither octave is 0, [<] is the lexicographic order of the keys
    (octave, 4 when unspecified; step). *)
Lemma lt_key_order (p q : Pitch.t) (s s' : Z) :
  Pitch.step p = Ok s -> Pitch.step q = Ok s' ->
  Pitch.octave p <> Some 0 -> Pitch.octave q <> Some 0 ->
  Pitch.lt p q =
    Ok (Spec.key_lt (Spec.order_key (Pitch.octave p) s)
                    (Spec.order_key (Pitch.octave q) s')).
Proof.
  intros Ep Eq Hp Hq. unfold Pitch.lt. rewrite Ep, Eq. cbn [bind].
  rewrite tuple_lt_key_lt. unfold Spec.order_key, Pitch.octave_or, Pitch.truthy.
  destruct (Pitch.octave p) as [x|], (Pitch.octave q) as [y|];
    try destruct (Z.eqb_spec x 0) as [->|]; try destruct (Z.eqb_spec y 0) as [->|];
    try contradiction; reflexivity.
Qed.

(** An explicit octave 0 is ordered as octave 4. *)
Lemma lt_octave_zero (l : ascii) (a : string) (q : Pitch.t) :
  Pitch.lt (Pitch.mk l a (Some 0)) q = Pitch.lt (Pitch.mk l a (Some 4)) q /\
  Pitch.lt q (Pitch.mk l a (Some 0)) = Pitch.lt q (Pitch.mk l a (Some 4)).
Proof. split; reflexivity. Qed.

(** C6: [Pitch("C0") < Pitch("C1")] is False and [Pitch("C1") < Pitch("C0")]
    is True, while the key (0, 0) of the first is below the key (1, 0) of the
    second: [self.octave or 4] replaces the explicit octave 0 by 4. *)
Theorem octave_zero_ordering :
  (p <- Pitch.init "C0" ;; q <- Pitch.init "C1" ;; Pitch.lt p q) = Ok false /\
  (p <- Pitch.init "C0" ;; q <- Pitch.init "C1" ;; Pitch.lt q p) = Ok true /\
  (p <- Pitch.init "C0" ;; q <- Pitch.init "C1" ;;
   s <- Pitch.step p ;; s' <- Pitch.step q ;;
   Ok (Spec.key_lt (Spec.order_key (Pitch.octave p) s)
                   (Spec.order_key (Pitch.octave q) s'))) = Ok true.
Proof. repeat split; reflexivity. Qed.

(** C3: [Pitch("C4") + Interval("M3")] is [Pitch("E3")] and
    [Pitch("C4") + Interval("m3")] is [Pitch("Eb3")], an octave below the
    pitches E4 and Eb4, to which they are not equal: the interval steps are
    -8 and -9, so the octave offset is -1. *)
Theorem add_third_to_c4 :
  (p <- Pitch.init "C4" ;; i <- Interval.init "M3" ;; Pitch.add p i)
    = Ok (Pitch.mk "E" "" (Some 3)) /\
  (p <- Pitch.init "C4" ;; i <- Interval.init "m3" ;; Pitch.add p i)
    = Ok (Pitch.mk "E" "b" (Some 3)) /\
  (p <- Pitch.init "C4" ;; i <- Interval.init "M3" ;; r <- Pitch.add p i ;;
   e <- Pitch.init "E4" ;; Ok (Pitch.eq r e)) = Ok false /\
  (p <- Pitch.init "C4" ;; i <- Interval.init "m3" ;; r <- Pitch.add p i ;;
   e <- Pitch.init "Eb4" ;; Ok (Pitch.eq r e)) = Ok false.
Proof. repeat split; reflexivity. Qed.

(** Addition re-validates its result: past octave 7 the constructor
    refuses the text. *)
Lemma add_past_last_octave :
  (p <- Pitch.init "B7" ;; Pitch.add_str p "M7") = Raise (InvalidPitch "A#8").
Proof. reflexivity. Qed.

(** *** Equality and hashing *)

Lemma option_eqb_eq (a b : option Z) : Pitch.option_eqb a b = true <-> a = b.
Proof.
  destruct a as [x|], b as [y|]; simpl; split; intros H;
    try discriminate; try reflexivity.
  - apply Z.eqb_eq in H. now subst.
  - injection H as ->. apply Z.eqb_refl.
Qed.

Lemma pitch_eq_fields (x y : Pitch.t) :
  Pitch.eq x y = true <->
  (Pitch.accidental x, Pitch.letter x, Pitch.octave x) =
  (Pitch.accidental y, Pitch.letter y, Pitch.octave y).
Proof.
  unfold Pitch.eq. rewrite !andb_true_iff, String.eqb_eq, Ascii.eqb_eq,
    option_eqb_eq.
  split; [intros [[-> ->] ->]; reflexivity | intros [= -> -> ->]; auto].
Qed.

Lemma interval_eq_fields (x y : Interval.t) :
  Interval.eq x y = true <->
  (Interval.accidental x, Interval.degree x) =
  (Interval.accidental y, Interval.degree y).
Proof.
  unfold Interval.eq. rewrite andb_true_iff, Ascii.eqb_eq, Z.eqb_eq.
  split; [intros [-> ->]; reflexivity | intros [= -> ->]; auto].
Qed.

(** C10: whatever function of the field tuple Python's [hash] is, two
    pitches that are [==] have the same [__hash__], and so have two
    intervals: [__eq__] holds exactly when the tuples (accidental, letter,
    octave), respectively (accidental, degree), are equal, and [__hash__] is
    [hash] of that tuple. *)
Theorem hash_consistent_with_eq
    (hp : string * ascii * option Z -> Z) (hi : ascii * Z -> Z) :
  (forall x y : Pitch.t,
     Pitch.eq x y = true -> Pitch.hash hp x = Pitch.hash hp y) /\
  (forall x y : Interval.t,
     Interval.eq x y = true -> Interval.hash hi x = Interval.hash hi y).
Proof.
  split; intros x y H; unfold Pitch.hash, Interval.hash; f_equal.
  - now apply pitch_eq_fields.
  - now apply interval_eq_fields.
Qed.

(** The pitches of the texts [c#4] and [C#4] are equal and hash alike, and
    so do the intervals of [+4] and [A4], here for hashes that read the
    accidental and the octave, respectively the degree. *)
Lemma hash_consistent_with_eq_witness :
  match Pitch.init "c#4", Pitch.init "C#4" with
  | Ok x, Ok y =>
      Pitch.eq x y = true /\
      Pitch.hash (fun k => Z.of_nat (String.length (fst (fst k)))
                           + match snd k with Some n => n | None => -1 end) x
      = Pitch.hash (fun k => Z.of_nat (String.length (fst (fst k)))
                             + match snd k with Some n => n | None => -1 end) y
  | _, _ => False
  end /\
  match Interval.init "+4", Interval.init "A4" with
  | Ok x, Ok y =>
      Interval.eq x y = true /\
      Interval.hash (fun k => snd k + 1) x = Interval.hash (fun k => snd k + 1) y
  | _, _ => False
  end.
Proof.
  split; cbv beta iota delta [Pitch.init Interval.init];
    [change (Pitch.parse "c#4") with (Some ("C"%char, "#", Some 4));
     change (Pitch.parse "C#4") with (Some ("C"%char, "#", Some 4))
    |change (Interval.parse "+4") with (Ok (Some ("A"%char, 4)));
     change (Interval.parse "A4") with (Ok (Some ("A"%char, 4)))];
    cbv beta iota delta [bind]; (split; [reflexivity|]).
  - apply (proj1 (hash_consistent_with_eq _ (fun k => snd k + 1))). reflexivity.
  - apply (proj2 (hash_consistent_with_eq (fun _ => 0) _)). reflexivity.
Defined.

(** ** Further properties of [Interval] *)

Lemma digit_value_nonneg (c : ascii) : is_digit c = true -> 0 <= digit_value c <= 9.
Proof.
  unfold is_digit, in_range, digit_value. intros H.
  apply andb_true_iff in H as [Hlo Hhi]. apply N.leb_le in Hlo, Hhi.
  change (N_of_ascii "0") with 48%N in Hlo.
  change (N_of_ascii "9") with 57%N in Hhi. lia.
Qed.

Lemma int_from_nonneg (s : string) (acc : Z) :
  all_digits s = true -> 0 <= acc -> 0 <= int_from acc s.
Proof.
  revert acc. induction s as [|c r IH]; intros acc Hs Hacc;
    cbn [int_from all_digits] in *.
  - exact Hacc.
  - apply andb_true_iff in Hs as [Hc Hr].
    apply IH; [exact Hr|]. pose proof (digit_value_nonneg c Hc). lia.
Qed.

(** X1: the aliases are normalised at parse time: a text that starts with
    [+] parses like the same text with [A], one that starts with [-] like the
    same text with [D]. *)
Theorem interval_alias_normalised (ds : string) :
  Interval.parse (String "+" ds) = Interval.parse (String "A" ds) /\
  Interval.parse (String "-" ds) = Interval.parse (String "D" ds).
Proof. split; reflexivity. Qed.

Lemma constructed_degree_nonneg (i : Interval.t) :
  Interval.constructed i -> 0 <= Interval.degree i.
Proof.
  intros [v Hv]. apply init_inv in Hv.
  apply interval_parse_inv in Hv as (q & ds & _ & _ & _ & Hds & _ & Hd & _).
  rewrite Hd. now apply int_from_nonneg.
Qed.

(** X2: the invariant of a constructed interval: the degree is not negative
    (0 is possible), the quality is a character of the class other than the
    two aliases, and the quality [P] only goes with a degree that is 1, 4 or
    5 modulo 7. *)
Theorem interval_invariant (i : Interval.t) :
  Interval.constructed i ->
  0 <= Interval.degree i /\
  Interval.quality_char (Interval.accidental i) = true /\
  Interval.accidental i <> "+"%char /\
  Interval.accidental i <> "-"%char /\
  (Interval.accidental i = "P"%char ->
   mem (Interval.degree i mod 7) [1; 4; 5] = true).
Proof.
  intros Hc. split;
    [now apply constructed_degree_nonneg | now apply constructed_quality].
Qed.

Lemma interval_invariant_witness :
  Interval.constructed (Interval.mk "M" 0) /\
  0 <= Interval.degree (Interval.mk "M" 0).
Proof.
  assert (Hc : Interval.constructed (Interval.mk "M" 0))
    by (exists "M0"; reflexivity).
  split; [exact Hc|]. exact (proj1 (interval_invariant _ Hc)).
Defined.

Lemma digit_quality (q : ascii) :
  is_digit q = true ->
  Interval.quality_char q = true /\ Ascii.eqb q "+" = false /\
  Ascii.eqb q "-" = false /\ Ascii.eqb q "P" = false.
Proof.
  intros H. unfold is_digit, in_range in H.
  apply andb_true_iff in H as [Hlo Hhi]. apply N.leb_le in Hlo, Hhi.
  change (N_of_ascii "0") with 48%N in Hlo.
  change (N_of_ascii "9") with 57%N in Hhi.
  assert (Hne : forall k, (N_of_ascii k < 48 \/ 57 < N_of_ascii k)%N ->
                          Ascii.eqb q k = false).
  { intros k Hk. apply Ascii.eqb_neq. intros ->. lia. }
  repeat split; try (apply Hne; simpl; lia).
  unfold Interval.quality_char, in_range.
  change (N_of_ascii "+") with 43%N. change (N_of_ascii "A") with 65%N.
  replace (43 <=? N_of_ascii q)%N with true by (symmetry; apply N.leb_le; lia).
  replace (N_of_ascii q <=? 65)%N with true by (symmetry; apply N.leb_le; lia).
  cbn [andb]. now rewrite !orb_true_r.
Qed.

(** X3: the class of [REGEX] holds the range from [+] to [A], and with it the
    ten digits: a text of two or more decimal digits, the first as the
    quality and at most 4300 after it, parses as an interval of that quality
    and of the degree written by the other digits; with more than 4300
    digits after the first, [int] raises its error. *)
Theorem digits_parse_as_interval (q : ascii) (ds : string) :
  all_digits (String q ds) = true ->
  (0 < String.length ds)%nat ->
  (Z.of_nat (String.length ds) <= 4300 ->
   Interval.parse (String q ds) = Ok (Some (q, int_value ds))) /\
  (4300 < Z.of_nat (String.length ds) ->
   Interval.parse (String q ds)
     = Raise (IntTooManyDigits (Z.of_nat (String.length ds)))).
Proof.
  cbn [all_digits]. intros H Hlen. apply andb_true_iff in H as [Hq Hds].
  destruct (digit_quality q Hq) as (Hc & Hplus & Hminus & HP).
  unfold Interval.parse. rewrite Hc, Hds, Hplus, Hminus, HP.
  destruct ds as [|d r]; [simpl in Hlen; lia|].
  change (String.eqb (String d r) "") with false. cbn [negb andb].
  split; intros Hl.
  - rewrite (int_within_limit _ Hl). cbn [bind]. now rewrite andb_false_r.
  - now rewrite (int_past_limit _ Hl).
Qed.

Lemma digits_parse_as_interval_witness :
  Interval.parse "512" = Ok (Some ("5"%char, 12)).
Proof.
  apply (proj1 (digits_parse_as_interval "5" "12" eq_refl ltac:(simpl; lia))).
  simpl; lia.
Defined.

Lemma mod_degree_range (i : Interval.t) :
  0 <= Interval.degree i -> 0 <= Interval.mod_degree i <= 8.
Proof.
  intros H. unfold Interval.mod_degree.
  destruct (Z.ltb_spec 8 (Interval.degree i)); [|lia].
  pose proof (Z.mod_pos_bound (Interval.degree i - 8) 7). lia.
Qed.

Lemma lookup_map_none (m : Z) :
  0 <= m <= 8 -> (Interval.lookup Interval.map m = None <-> m = 0).
Proof.
  intros Hm.
  assert (Hcases : m = 0 \/ m = 1 \/ m = 2 \/ m = 3 \/ m = 4 \/ m = 5 \/
                   m = 6 \/ m = 7 \/ m = 8) by lia.
  repeat (destruct Hcases as [-> | Hcases];
          [split; (reflexivity || discriminate)|]).
  subst m. split; discriminate.
Qed.

(** [Interval.step] raises a KeyError exactly when the lookup fails. *)
Lemma step_key_error (i : Interval.t) (k : Z) :
  Interval.step i = Raise (KeyErrorInt k) <->
  Interval.lookup Interval.map (Interval.mod_degree i) = None /\
  k = Interval.mod_degree i.
Proof.
  unfold Interval.step, Interval.getitem.
  destruct (Interval.lookup _ _) as [b|]; cbn [bind].
  - split; [|intros [[=] _]].
    destruct (mem _ _);
      repeat match goal with
      | |- context [Ascii.eqb ?c ?x] => destruct (Ascii.eqb c x)
      end; discriminate.
  - split; [intros [= ->]; auto | intros [_ ->]; reflexivity].
Qed.

(** X4: on a constructed interval, [step] stops on the missing key 0 of
    [map] exactly when the degree is 0, or is above 8 and is 1 modulo 7
    (15, 22, ...); it raises no other KeyError. *)
Theorem step_key_error_iff (i : Interval.t) :
  Interval.constructed i ->
  (Interval.step i = Raise (KeyErrorInt 0) <->
   Interval.degree i = 0 \/
   (8 < Interval.degree i /\ Interval.degree i mod 7 = 1)) /\
  (forall k, Interval.step i = Raise (KeyErrorInt k) -> k = 0).
Proof.
  intros Hc. pose proof (constructed_degree_nonneg i Hc) as Hd.
  pose proof (mod_degree_range i Hd) as Hr.
  pose proof (lookup_map_none _ Hr) as Hn.
  assert (Hm : Interval.mod_degree i = 0 <->
               Interval.degree i = 0 \/
               (8 < Interval.degree i /\ Interval.degree i mod 7 = 1)).
  { unfold Interval.mod_degree.
    destruct (Z.ltb_spec 8 (Interval.degree i)) as [Hgt|Hle].
    - split; [intros H; right | intros [?|[_ H]]; [lia|]];
        Z.to_euclidean_division_equations; lia.
    - split; [now left | intros [?|[? _]]; lia]. }
  split.
  - rewrite step_key_error, Hn, <- Hm. split; [tauto | intros H; split; congruence].
  - intros k Hk. apply step_key_error in Hk as [Hnone ->]. now apply Hn.
Qed.

Lemma step_key_error_iff_witness :
  Interval.constructed (Interval.mk "P" 22) /\
  Interval.step (Interval.mk "P" 22) = Raise (KeyErrorInt 0).
Proof.
  assert (Hc : Interval.constructed (Interval.mk "P" 22))
    by (exists "P22"; reflexivity).
  split; [exact Hc|].
  apply (proj1 (step_key_error_iff _ Hc)). right.
  split; [simpl; lia | reflexivity].
Defined.

(** X5: above degree 8, seven more degrees are one more octave: [step] of
    the degree [d + 7] is [step] of the degree [d] plus 12, and raises
    whatever [step] of the degree [d] raises. *)
Theorem step_compound_period (q : ascii) (d : Z) :
  8 < d ->
  Interval.step (Interval.mk q (d + 7)) =
    (z <- Interval.step (Interval.mk q d) ;; Ok (z + 12)).
Proof.
  intros Hd. unfold Interval.step, Interval.mod_degree.
  cbn [Interval.degree Interval.accidental].
  destruct (Z.ltb_spec 8 d) as [_|]; [|lia].
  destruct (Z.ltb_spec 8 (d + 7)) as [_|]; [|lia].
  replace ((d + 7 - 8) mod 7) with ((d - 8) mod 7)
    by (Z.to_euclidean_division_equations; lia).
  replace ((d + 7) / 7) with (d / 7 + 1)
    by (Z.to_euclidean_division_equations; lia).
  destruct (Interval.getitem _ _) as [b|e]; cbn [bind]; [|reflexivity].
  destruct (mem _ _);
    repeat match goal with
    | |- context [Ascii.eqb ?c ?x] => destruct (Ascii.eqb c x)
    end; cbn [bind]; try reflexivity; f_equal; lia.
Qed.

Lemma step_compound_period_witness :
  Interval.step (Interval.mk "M" 17) = Ok 14 /\
  Interval.step (Interval.mk "M" 10) = Ok 2.
Proof.
  split; [|reflexivity].
  change 17 with (10 + 7).
  rewrite (step_compound_period "M" 10 ltac:(lia)). reflexivity.
Defined.

(** The fold of [single_octave] above degree 8. *)
Lemma single_octave_fold (i : Interval.t) :
  Interval.constructed i ->
  8 < Interval.degree i ->
  0 <= (Interval.degree i - 8) mod 7 <= 6 /\
  Interval.single_octave i =
    if Ascii.eqb (Interval.accidental i) "P"
       && negb (mem ((Interval.degree i - 8) mod 7) [1; 4; 5])
    then Raise (InvalidInterval
                  (String (Interval.accidental i)
                     (str_of_int ((Interval.degree i - 8) mod 7))))
    else Ok (Interval.mk (Interval.accidental i)
               ((Interval.degree i - 8) mod 7)).
Proof.
  intros Hc Hd. destruct (constructed_quality i Hc) as (Hq & Hplus & Hminus & _).
  apply Ascii.eqb_neq in Hplus, Hminus.
  unfold Interval.single_octave.
  destruct (Z.leb_spec (Interval.degree i) 8); [lia|].
  pose proof (Z.mod_pos_bound (Interval.degree i - 8) 7 ltac:(lia)) as Hm.
  split; [lia|].
  generalize dependent ((Interval.degree i - 8) mod 7). intros m Hm.
  assert (Hcases : m = 0 \/ m = 1 \/ m = 2 \/ m = 3 \/ m = 4 \/ m = 5 \/ m = 6)
    by lia.
  unfold Interval.init, Interval.parse.
  rewrite Hq, Hplus, Hminus.
  repeat (destruct Hcases as [-> | Hcases];
          [destruct (Ascii.eqb (Interval.accidental i) "P"); reflexivity|]).
  subst m. destruct (Ascii.eqb (Interval.accidental i) "P"); reflexivity.
Qed.

(** X6: on a constructed interval of degree above 8, [single_octave] builds
    the same quality with the degree [(degree - 8) % 7], a number from 0 to
    6; the constructor refuses it, raising the invalid-interval error on the
    rebuilt text, exactly when the quality is [P] and that number is not 1,
    4 or 5. *)
Theorem single_octave_compound (i : Interval.t) :
  Interval.constructed i ->
  8 < Interval.degree i ->
  0 <= (Interval.degree i - 8) mod 7 <= 6 /\
  Interval.single_octave i =
    if Ascii.eqb (Interval.accidental i) "P"
       && negb (mem ((Interval.degree i - 8) mod 7) [1; 4; 5])
    then Raise (InvalidInterval
                  (String (Interval.accidental i)
                     (str_of_int ((Interval.degree i - 8) mod 7))))
    else Ok (Interval.mk (Interval.accidental i)
               ((Interval.degree i - 8) mod 7)).
Proof. exact (single_octave_fold i). Qed.

Lemma single_octave_compound_witness :
  Interval.single_octave (Interval.mk "P" 12) = Ok (Interval.mk "P" 4) /\
  Interval.single_octave (Interval.mk "P" 11)
    = Raise (InvalidInterval "P3").
Proof.
  assert (H12 : Interval.constructed (Interval.mk "P" 12))
    by (exists "P12"; reflexivity).
  assert (H11 : Interval.constructed (Interval.mk "P" 11))
    by (exists "P11"; reflexivity).
  split.
  - exact (proj2 (single_octave_compound _ H12 ltac:(simpl; lia))).
  - exact (proj2 (single_octave_compound _ H11 ltac:(simpl; lia))).
Defined.

(** X7: [inverted] never returns an interval.  On a constructed interval it
    returns [None], unless the degree is above 8, the quality is [P] and
    [(degree - 8) % 7] is not 1, 4 or 5: then the invalid-interval error of
    [single_octave] comes through. *)
Theorem inverted_returns_none (i : Interval.t) :
  Interval.constructed i ->
  Interval.inverted i =
    if (8 <? Interval.degree i)
       && Ascii.eqb (Interval.accidental i) "P"
       && negb (mem ((Interval.degree i - 8) mod 7) [1; 4; 5])
    then Raise (InvalidInterval
                  (String (Interval.accidental i)
                     (str_of_int ((Interval.degree i - 8) mod 7))))
    else Ok None.
Proof.
  intros Hc. unfold Interval.inverted.
  destruct (Z.ltb_spec 8 (Interval.degree i)) as [Hgt|Hle].
  - destruct (single_octave_fold i Hc Hgt) as [_ ->]. cbn [andb].
    now destruct (_ && _).
  - rewrite single_octave_simple by exact Hle. reflexivity.
Qed.

Lemma inverted_returns_none_witness :
  Interval.inverted (Interval.mk "M" 3) = Ok None /\
  Interval.inverted (Interval.mk "P" 15) = Raise (InvalidInterval "P0").
Proof.
  assert (H3 : Interval.constructed (Interval.mk "M" 3))
    by (exists "M3"; reflexivity).
  assert (H15 : Interval.constructed (Interval.mk "P" 15))
    by (exists "P15"; reflexivity).
  split.
  - exact (inverted_returns_none _ H3).
  - exact (inverted_returns_none _ H15).
Defined.

(** X8: where [step] returns, [<] on intervals is a strict order that never
    holds between equal intervals: it is false of an interval and itself,
    it is transitive, and [a < b] excludes both [a == b] and [b < a]. *)
Theorem interval_lt_strict (a b c : Interval.t) :
  (forall z, Interval.step a = Ok z -> Interval.lt a a = Ok false) /\
  (Interval.lt a b = Ok true -> Interval.lt b c = Ok true ->
   Interval.lt a c = Ok true) /\
  (Interval.lt a b = Ok true ->
   Interval.eq a b = false /\ Interval.lt b a = Ok false).
Proof.
  unfold Interval.lt. split; [|split].
  - intros z ->. cbn [bind]. now rewrite Z.ltb_irrefl.
  - destruct (Interval.step a) as [x|], (Interval.step b) as [y|],
      (Interval.step c) as [z|]; cbn [bind]; try discriminate.
    intros [= Hxy] [= Hyz]. f_equal. apply Z.ltb_lt in Hxy, Hyz.
    apply Z.ltb_lt. lia.
  - intros Hlt. split.
    + destruct (Interval.eq a b) eqn:He; [|reflexivity].
      apply interval_eq_fields in He. destruct a, b. injection He as -> ->.
      destruct (Interval.step _) as [x|]; cbn [bind] in Hlt; [|discriminate].
      now rewrite Z.ltb_irrefl in Hlt.
    + destruct (Interval.step a) as [x|], (Interval.step b) as [y|];
        cbn [bind] in *; try discriminate.
      injection Hlt as Hxy. f_equal. apply Z.ltb_lt in Hxy. apply Z.ltb_ge. lia.
Qed.

Lemma interval_lt_strict_witness :
  Interval.lt (Interval.mk "M" 2) (Interval.mk "P" 8) = Ok true /\
  Interval.eq (Interval.mk "M" 2) (Interval.mk "M" 7) = false.
Proof.
  split.
  - apply (proj1 (proj2 (interval_lt_strict (Interval.mk "M" 2)
                           (Interval.mk "M" 7) (Interval.mk "P" 8))));
      reflexivity.
  - apply (proj2 (proj2 (interval_lt_strict (Interval.mk "M" 2)
                           (Interval.mk "M" 7) (Interval.mk "P" 8)))).
    reflexivity.
Defined.

(** ** Further properties of [Pitch] *)

(** *** Printing integers *)

Lemma str_of_int_parsed (z : Z) :
  NilZero.int_of_string (str_of_int z) = Some (Z.to_int z).
Proof.
  unfold str_of_int. apply NilZero.isi; destruct z as [|p|p]; simpl;
    intros [= H]; now apply (Unsigned.to_uint_nonnil p).
Qed.

Lemma str_of_int_inj (a b : Z) : str_of_int a = str_of_int b -> a = b.
Proof.
  intros H. apply DecimalZ.to_int_inj.
  pose proof (str_of_int_parsed a) as Ha. rewrite H, str_of_int_parsed in Ha.
  now injection Ha.
Qed.

(** The text of an integer starts with a digit or with the sign [-]. *)
Lemma str_of_int_head (z : Z) :
  str_of_int z <> "" /\
  head_is "#" (str_of_int z) = false /\ head_is "b" (str_of_int z) = false.
Proof.
  unfold str_of_int. destruct z as [|p|p]; simpl;
    try destruct (Pos.to_uint p); repeat split; discriminate.
Qed.

(** The octave group and the end of the text match the text of an integer
    exactly when the integer is from 0 to 7. *)
Lemma octave_tail_str_of_int (k : Z) :
  Pitch.octave_tail (str_of_int k) =
    if (0 <=? k) && (k <=? 7) then Some (Some k) else None.
Proof.
  destruct (Z.leb_spec 0 k), (Z.leb_spec k 7); cbn [andb].
  - assert (Hcases : k = 0 \/ k = 1 \/ k = 2 \/ k = 3 \/ k = 4 \/ k = 5 \/
                     k = 6 \/ k = 7) by lia.
    repeat (destruct Hcases as [-> | Hcases]; [reflexivity|]). now subst k.
  - destruct (Pitch.octave_tail (str_of_int k)) as [o|] eqn:Ho; [|reflexivity].
    apply octave_tail_inv in Ho as [[He _] | (z & Hz & _ & He)].
    + now destruct (str_of_int_head k).
    + apply str_of_int_inj in He. lia.
  - destruct (Pitch.octave_tail (str_of_int k)) as [o|] eqn:Ho; [|reflexivity].
    apply octave_tail_inv in Ho as [[He _] | (z & Hz & _ & He)].
    + now destruct (str_of_int_head k).
    + apply str_of_int_inj in He. lia.
  - lia.
Qed.

(** *** The grammar of pitches *)

Lemma octave_tail_head (c : ascii) (r : string) :
  in_range "0" "7" c = false -> Pitch.octave_tail (String c r) = None.
Proof. intros H. cbn [Pitch.octave_tail]. rewrite H. now destruct r. Qed.

(** Parsing a letter, a run of one accidental symbol and a tail that starts
    with neither symbol: the tail decides. *)
Lemma parse_run_text (l c : ascii) (n : nat) (t : string) :
  Pitch.letter_char l = true ->
  c = "#"%char \/ c = "b"%char ->
  head_is "#" t = false -> head_is "b" t = false ->
  Pitch.parse (String l (replicate n c ++ t)) =
    match Pitch.octave_tail t with
    | Some o => Some (upper l, replicate n c, o)
    | None => None
    end.
Proof.
  intros Hl Hc Hsharp Hflat. unfold Pitch.parse. rewrite Hl.
  pose proof (span_replicate "#" 0 t Hsharp) as Hs0.
  pose proof (span_replicate "b" 0 t Hflat) as Hf0.
  cbn [replicate append] in Hs0, Hf0.
  destruct Hc as [-> | ->].
  - rewrite (span_replicate "#" n t Hsharp).
    destruct (Pitch.octave_tail t) as [o|] eqn:Ht; [reflexivity|].
    destruct n as [|k].
    + cbn [replicate append]. now rewrite Hf0, Ht.
    + assert (Hsp : span "b" (replicate (S k) "#" ++ t)
                    = ("", replicate (S k) "#" ++ t)) by reflexivity.
      rewrite Hsp.
      now rewrite (octave_tail_head "#" (replicate k "#" ++ t) eq_refl
                   : Pitch.octave_tail (replicate (S k) "#" ++ t) = None).
  - destruct n as [|k].
    + cbn [replicate append]. rewrite Hs0.
      destruct (Pitch.octave_tail t) as [o|] eqn:Ht; [reflexivity|].
      now rewrite Hf0, Ht.
    + assert (Hsp : span "#" (replicate (S k) "b" ++ t)
                    = ("", replicate (S k) "b" ++ t)) by reflexivity.
      rewrite Hsp.
      rewrite (octave_tail_head "b" (replicate k "b" ++ t) eq_refl
               : Pitch.octave_tail (replicate (S k) "b" ++ t) = None).
      rewrite (span_replicate "b" (S k) t Hflat).
      now destruct (Pitch.octave_tail t).
Qed.

(** X9: [Pitch.parse] accepts exactly the texts made of one letter of
    [CDEFGABcdefgab], then a run of [#] or a run of [b] (possibly empty),
    then nothing or one octave digit from 0 to 7; it returns the letter in
    upper case, the run, and the octave. *)
Theorem pitch_parse_grammar (v : string) (L : ascii) (a : string)
    (o : option Z) :
  Pitch.parse v = Some (L, a, o) <->
  exists l : ascii,
    Pitch.letter_char l = true /\ L = upper l /\
    (exists n, a = replicate n "#" \/ a = replicate n "b") /\
    match o with Some z => 0 <= z <= 7 | None => True end /\
    v = String l (a ++ match o with Some z => str_of_int z | None => "" end).
Proof.
  split.
  - unfold Pitch.parse. destruct v as [|l rest]; [discriminate|].
    destruct (Pitch.letter_char l) eqn:Hl; [|discriminate].
    assert (Hrun : forall c run after o',
              span c rest = (run, after) ->
              Pitch.octave_tail after = Some o' ->
              run = replicate (String.length run) c /\
              match o' with Some z => 0 <= z <= 7 | None => True end /\
              rest = run ++ match o' with
                            | Some z => str_of_int z | None => ""
                            end).
    { intros c run after o' Hs Ho. apply span_inv in Hs as (Hr & -> & _).
      apply octave_tail_inv in Ho as [[-> ->] | (z & Hz & -> & ->)]; auto. }
    destruct (span "#" rest) as [sharps after] eqn:Hs.
    destruct (Pitch.octave_tail after) as [o1|] eqn:Ho1.
    + intros [= <- <- <-]. destruct (Hrun _ _ _ _ Hs Ho1) as (Hr & Hz & ->).
      exists l. repeat split; eauto.
    + destruct (span "b" rest) as [flats after'] eqn:Hf.
      destruct (Pitch.octave_tail after') as [o2|] eqn:Ho2; [|discriminate].
      intros [= <- <- <-]. destruct (Hrun _ _ _ _ Hf Ho2) as (Hr & Hz & ->).
      exists l. repeat split; eauto.
  - intros (l & Hl & -> & (n & Ha) & Hz & ->).
    assert (Ht : let t := match o with Some z => str_of_int z | None => "" end in
                 Pitch.octave_tail t = Some o /\
                 head_is "#" t = false /\ head_is "b" t = false).
    { destruct o as [z|]; [|repeat split]. cbv zeta.
      rewrite octave_tail_str_of_int.
      destruct (Z.leb_spec 0 z), (Z.leb_spec z 7); try lia.
      split; [reflexivity | apply str_of_int_head]. }
    destruct Ht as (Ht & Hsharp & Hflat).
    destruct Ha as [-> | ->]; rewrite parse_run_text, Ht; auto.
Qed.

(** X10: the letter is read without regard to case: a text that starts with
    a letter of the class parses to the same triple as the text with that
    letter in upper case. *)
Theorem pitch_parse_case_insensitive (l : ascii) (rest : string) :
  Pitch.letter_char l = true ->
  Pitch.parse (String l rest) = Pitch.parse (String (upper l) rest).
Proof.
  intros Hl. destruct (letters_canonical _ (letter_char_upper l Hl)) as [Hu Huu].
  unfold Pitch.parse. now rewrite Hl, Hu, Huu.
Qed.

Lemma pitch_parse_case_insensitive_witness :
  Pitch.parse "g##7" = Pitch.parse "G##7".
Proof. apply (pitch_parse_case_insensitive "g" "##7"). reflexivity. Defined.

(** *** The step of a pitch *)

Lemma count_replicate (c d : ascii) (n : nat) :
  count c (replicate n d) = if Ascii.eqb d c then Z.of_nat n else 0.
Proof.
  induction n as [|n IH]; cbn [replicate count].
  - now destruct (Ascii.eqb d c).
  - rewrite IH. destruct (Ascii.eqb d c); lia.
Qed.

(** X11: [Pitch.step] is the table value of the letter plus one per sharp,
    or minus one per flat, with no reduction modulo 12: a pitch with more
    flats than its table value has a negative step. *)
Theorem pitch_step_runs (l : ascii) (b : Z) (n : nat) (o : option Z) :
  Pitch.lookup Pitch.LETTER_STEP l = Some b ->
  Pitch.step (Pitch.mk l (replicate n "#") o) = Ok (b + Z.of_nat n) /\
  Pitch.step (Pitch.mk l (replicate n "b") o) = Ok (b - Z.of_nat n).
Proof.
  intros Hb. unfold Pitch.step, Pitch.getitem.
  cbn [Pitch.letter Pitch.accidental]. rewrite Hb. cbn [bind].
  rewrite !count_replicate.
  change (Ascii.eqb "#" "b") with false. change (Ascii.eqb "b" "#") with false.
  rewrite !Ascii.eqb_refl. split; f_equal; lia.
Qed.

Lemma pitch_step_runs_witness :
  Pitch.init "Dbbb4" = Ok (Pitch.mk "D" (replicate 3 "b") (Some 4)) /\
  Pitch.step (Pitch.mk "D" (replicate 3 "b") (Some 4)) = Ok (-1).
Proof.
  split; [reflexivity|].
  exact (proj2 (pitch_step_runs "D" 2 3 (Some 4) eq_refl)).
Defined.

(** *** Ordering of pitches *)

Lemma tuple_lt_irrefl (a : Z * Z) : Pitch.tuple_lt a a = false.
Proof. unfold Pitch.tuple_lt. now rewrite Z.eqb_refl, Z.ltb_irrefl. Qed.

Lemma tuple_lt_trans (a b c : Z * Z) :
  Pitch.tuple_lt a b = true -> Pitch.tuple_lt b c = true ->
  Pitch.tuple_lt a c = true.
Proof.
  unfold Pitch.tuple_lt.
  destruct (Z.eqb_spec (fst a) (fst b)), (Z.eqb_spec (fst b) (fst c)),
    (Z.eqb_spec (fst a) (fst c)); rewrite ?Z.ltb_lt; lia.
Qed.

Lemma tuple_lt_asym (a b : Z * Z) :
  Pitch.tuple_lt a b = true -> Pitch.tuple_lt b a = false.
Proof.
  unfold Pitch.tuple_lt.
  destruct (Z.eqb_spec (fst a) (fst b)), (Z.eqb_spec (fst b) (fst a));
    rewrite ?Z.ltb_lt, ?Z.ltb_ge; lia.
Qed.

(** X12: where [step] returns, as on all constructed pitches, [<] on pitches
    is a strict order that never holds between equal pitches: it is false of
    a pitch and itself, it is transitive, and [p < q] excludes both
    [p == q] and [q < p]. *)
Theorem pitch_lt_strict (p q r : Pitch.t) :
  (forall s, Pitch.step p = Ok s -> Pitch.lt p p = Ok false) /\
  (Pitch.lt p q = Ok true -> Pitch.lt q r = Ok true ->
   Pitch.lt p r = Ok true) /\
  (Pitch.lt p q = Ok true ->
   Pitch.eq p q = false /\ Pitch.lt q p = Ok false).
Proof.
  unfold Pitch.lt. split; [|split].
  - intros s ->. cbn [bind]. now rewrite tuple_lt_irrefl.
  - destruct (Pitch.step p) as [x|], (Pitch.step q) as [y|],
      (Pitch.step r) as [z|]; cbn [bind]; try discriminate.
    intros [= Hxy] [= Hyz]. f_equal. eapply tuple_lt_trans; eassumption.
  - intros Hlt. split.
    + destruct (Pitch.eq p q) eqn:He; [|reflexivity].
      apply pitch_eq_fields in He. destruct p, q. injection He as -> -> ->.
      destruct (Pitch.step _) as [x|]; cbn [bind] in Hlt; [|discriminate].
      now rewrite tuple_lt_irrefl in Hlt.
    + destruct (Pitch.step p) as [x|], (Pitch.step q) as [y|];
        cbn [bind] in *; try discriminate.
      injection Hlt as Hxy. f_equal. now apply tuple_lt_asym.
Qed.

Lemma pitch_lt_strict_witness :
  Pitch.lt (Pitch.mk "B" "" (Some 3)) (Pitch.mk "D" "" (Some 4)) = Ok true /\
  Pitch.eq (Pitch.mk "B" "" (Some 3)) (Pitch.mk "C" "" (Some 4)) = false.
Proof.
  split.
  - apply (proj1 (proj2 (pitch_lt_strict (Pitch.mk "B" "" (Some 3))
                           (Pitch.mk "C" "" (Some 4))
                           (Pitch.mk "D" "" (Some 4)))));
      reflexivity.
  - apply (proj2 (proj2 (pitch_lt_strict (Pitch.mk "B" "" (Some 3))
                           (Pitch.mk "C" "" (Some 4))
                           (Pitch.mk "D" "" (Some 4))))).
    reflexivity.
Defined.

(** X13: two pitches with the same step and the same octave (or both with
    none) that are not [==], such as two spellings of one sound, are beyond
    the derived comparisons: neither is [<] the other, each is [>] the other
    and [>=] the other, and neither is [<=] the other. *)
Theorem enharmonic_comparisons (p q : Pitch.t) (s : Z) :
  Pitch.step p = Ok s -> Pitch.step q = Ok s ->
  Pitch.octave p = Pitch.octave q ->
  Pitch.eq p q = false ->
  Pitch.lt p q = Ok false /\ Pitch.lt q p = Ok false /\
  Pitch.gt p q = Ok true /\ Pitch.gt q p = Ok true /\
  Pitch.ge p q = Ok true /\ Pitch.ge q p = Ok true /\
  Pitch.le p q = Ok false /\ Pitch.le q p = Ok false.
Proof.
  intros Hp Hq Ho He.
  assert (He' : Pitch.eq q p = false).
  { destruct (Pitch.eq q p) eqn:E; [|reflexivity].
    apply pitch_eq_fields in E. symmetry in E. apply pitch_eq_fields in E.
    congruence. }
  unfold Pitch.gt, Pitch.ge, Pitch.le, Pitch.lt.
  rewrite Hp, Hq, Ho, He, He'. cbn [bind]. rewrite tuple_lt_irrefl.
  repeat split.
Qed.

Lemma enharmonic_comparisons_witness :
  Pitch.init "C#4" = Ok (Pitch.mk "C" "#" (Some 4)) /\
  Pitch.init "Db4" = Ok (Pitch.mk "D" "b" (Some 4)) /\
  Pitch.gt (Pitch.mk "C" "#" (Some 4)) (Pitch.mk "D" "b" (Some 4)) = Ok true /\
  Pitch.gt (Pitch.mk "D" "b" (Some 4)) (Pitch.mk "C" "#" (Some 4)) = Ok true.
Proof.
  split; [reflexivity|split; [reflexivity|]].
  pose proof (enharmonic_comparisons (Pitch.mk "C" "#" (Some 4))
                (Pitch.mk "D" "b" (Some 4)) 1 eq_refl eq_refl eq_refl eq_refl)
    as H.
  split; [exact (proj1 (proj2 (proj2 H)))
         | exact (proj1 (proj2 (proj2 (proj2 H))))].
Defined.

(** *** Addition of an interval *)

Lemma letters_at (j : Z) :
  0 <= j < 7 ->
  exists l b,
    Pitch.list_getitem Pitch.LETTERS j = Ok l /\
    In l Pitch.LETTERS /\
    Pitch.lookup Pitch.LETTER_STEP l = Some b /\
    Pitch.list_index Pitch.LETTERS l = Ok j.
Proof.
  intros Hj.
  assert (Hcases : j = 0 \/ j = 1 \/ j = 2 \/ j = 3 \/ j = 4 \/ j = 5 \/ j = 6)
    by lia.
  repeat (destruct Hcases as [-> | Hcases];
          [do 2 eexists; repeat split; simpl; tauto|]).
  subst j. do 2 eexists; repeat split; simpl; tauto.
Qed.

(** The accidental that [__add__] writes for a difference [d] between the
    step of the letter and the target step is a run, and puts the step of
    the letter back on the target. *)
Lemma modifier_run (d : Z) :
  exists n c,
    (c = "#"%char \/ c = "b"%char) /\
    (if d =? 0 then EmptyString
     else if 0 <? d then repeat_char "b" d
     else repeat_char "#" (- d)) = replicate n c /\
    count "#" (replicate n c) - count "b" (replicate n c) = - d.
Proof.
  destruct (Z.eqb_spec d 0) as [->|Hd].
  - exists 0%nat, "#"%char. repeat split; auto.
  - destruct (Z.ltb_spec 0 d).
    + exists (Z.to_nat d), "b"%char. rewrite !count_replicate.
      change (Ascii.eqb "b" "#") with false. rewrite Ascii.eqb_refl.
      repeat split; auto; lia.
    + exists (Z.to_nat (- d)), "#"%char. rewrite !count_replicate.
      change (Ascii.eqb "#" "b") with false. rewrite Ascii.eqb_refl.
      repeat split; auto; lia.
Qed.

(** What [Pitch(text)] does on a text assembled by [__add__]. *)
Lemma init_assembled (l c : ascii) (n : nat) (t : string) :
  In l Pitch.LETTERS ->
  c = "#"%char \/ c = "b"%char ->
  head_is "#" t = false -> head_is "b" t = false ->
  Pitch.init (String l (replicate n c ++ t)) =
    match Pitch.octave_tail t with
    | Some o => Ok (Pitch.mk l (replicate n c) o)
    | None => Raise (InvalidPitch (String l (replicate n c ++ t)))
    end.
Proof.
  intros Hl Hc Hs Hf. destruct (letters_canonical l Hl) as [Hlc Hup].
  unfold Pitch.init. rewrite parse_run_text by assumption. rewrite Hup.
  now destruct (Pitch.octave_tail t).
Qed.

(** The whole of [__add__] on a constructed pitch and an interval whose
    [step] returns: the letter is looked up in the cycle, the accidental is
    a run that puts the step on the target, and the octave, when the pitch
    has one other than 0, is moved by the offset and must stay within 0..7. *)
Lemma add_eq (p : Pitch.t) (i : Interval.t) (s vs : Z) :
  Pitch.constructed p ->
  Pitch.step p = Ok s ->
  Interval.step i = Ok vs ->
  exists k l b run,
    Pitch.index p = Ok k /\
    Pitch.list_index Pitch.LETTERS l = Ok ((k + Interval.degree i - 1) mod 7) /\
    Pitch.lookup Pitch.LETTER_STEP l = Some b /\
    (exists n c, (c = "#"%char \/ c = "b"%char) /\ run = replicate n c) /\
    b + count "#" run - count "b" run = (s + vs) mod 12 /\
    Pitch.add p i =
      match Pitch.octave p with
      | Some m =>
          if Pitch.truthy (Some m) then
            if (0 <=? m + (s + vs) / 12) && (m + (s + vs) / 12 <=? 7)
            then Ok (Pitch.mk l run (Some (m + (s + vs) / 12)))
            else Raise (InvalidPitch
                          (String l (run ++ str_of_int (m + (s + vs) / 12))))
          else Ok (Pitch.mk l run None)
      | None => Ok (Pitch.mk l run None)
      end.
Proof.
  intros Hc Hs Hvs.
  destruct (pitch_step_total p Hc) as [_ (k & Hk & Hidx)].
  pose proof (Z.mod_pos_bound (k + Interval.degree i - 1) 7 ltac:(lia)) as Hj.
  destruct (letters_at _ Hj) as (l & b & Hget & Hl & Hb & Hli).
  destruct (modifier_run (b - (s + vs) mod 12)) as (n & c & Hcc & Hrun & Hcount).
  exists k, l, b, (replicate n c).
  split; [assumption|]. split; [assumption|]. split; [assumption|].
  split; [eauto|]. split; [lia|].
  unfold Pitch.add. rewrite Hs, Hvs, Hidx. cbn [bind]. rewrite Hget.
  cbn [bind]. unfold Pitch.getitem. rewrite Hb. cbn [bind]. rewrite Hrun.
  destruct (Pitch.octave p) as [m|]; [destruct (Pitch.truthy (Some m))|].
  - destruct (str_of_int_head (m + (s + vs) / 12)) as (_ & Hsh & Hfl).
    rewrite init_assembled by assumption.
    rewrite octave_tail_str_of_int. now destruct (_ && _).
  - now rewrite init_assembled.
  - now rewrite init_assembled.
Qed.

(** X14: when [pitch + interval] returns a pitch, its step is exactly
    [(pitch.step + interval.step) % 12], a number from 0 to 11, and its
    letter stands [degree - 1] places further round the cycle of
    [LETTERS]. *)
Theorem add_step_and_letter (p r : Pitch.t) (i : Interval.t) (s vs : Z) :
  Pitch.constructed p ->
  Pitch.step p = Ok s ->
  Interval.step i = Ok vs ->
  Pitch.add p i = Ok r ->
  Pitch.step r = Ok ((s + vs) mod 12) /\
  0 <= (s + vs) mod 12 < 12 /\
  Pitch.index r =
    (k <- Pitch.index p ;; Ok ((k + Interval.degree i - 1) mod 7)).
Proof.
  intros Hc Hs Hvs Hadd.
  destruct (add_eq p i s vs Hc Hs Hvs)
    as (k & l & b & run & Hk & Hli & Hb & _ & Hst & E).
  rewrite Hadd in E.
  assert (Hr : Pitch.letter r = l /\ Pitch.accidental r = run).
  { destruct (Pitch.octave p) as [m|]; [destruct (Pitch.truthy _)|];
      try destruct (_ && _); try discriminate; injection E as ->; auto. }
  destruct Hr as [Hrl Hra].
  split; [|split; [apply Z.mod_pos_bound; lia|]].
  - unfold Pitch.step, Pitch.getitem. rewrite Hrl, Hra, Hb. cbn [bind].
    f_equal. lia.
  - unfold Pitch.index. rewrite Hrl, Hli. fold (Pitch.index p).
    now rewrite Hk.
Qed.

Lemma add_step_and_letter_witness :
  Pitch.add (Pitch.mk "A" "#" (Some 3)) (Interval.mk "m" 7)
    = Ok (Pitch.mk "G" "#" (Some 4)) /\
  Pitch.step (Pitch.mk "G" "#" (Some 4)) = Ok ((10 + 10) mod 12).
Proof.
  assert (Hc : Pitch.constructed (Pitch.mk "A" "#" (Some 3)))
    by (exists "A#3"; reflexivity).
  split; [reflexivity|].
  exact (proj1 (add_step_and_letter (Pitch.mk "A" "#" (Some 3))
                  (Pitch.mk "G" "#" (Some 4)) (Interval.mk "m" 7) 10 10
                  Hc eq_refl eq_refl eq_refl)).
Defined.



(** X16: on a constructed pitch, [pitch + interval] raises only the error
    that [interval.step] raises or the invalid-pitch error of the final
    constructor; the lookups in [__LETTER_STEP] and [LETTERS] never fail. *)
Theorem add_errors (p : Pitch.t) (i : Interval.t) (e : exn) :
  Pitch.constructed p ->
  Pitch.add p i = Raise e ->
  Interval.step i = Raise e \/ exists text, e = InvalidPitch text.
Proof.
  intros Hc Hadd.
  destruct (pitch_step_total p Hc) as [(b & _ & Hs) _].
  destruct (Interval.step i) as [vs|e'] eqn:Hvs.
  - right.
    destruct (add_eq p i _ vs Hc Hs Hvs)
      as (k & l & b' & run & _ & _ & _ & _ & _ & E).
    rewrite Hadd in E.
    destruct (Pitch.octave p) as [m|]; [destruct (Pitch.truthy _)|];
      try destruct (_ && _); try discriminate.
    injection E as ->. eauto.
  - left. unfold Pitch.add in Hadd. rewrite Hs, Hvs in Hadd.
    cbn [bind] in Hadd. congruence.
Qed.

Lemma add_errors_witness :
  Pitch.add (Pitch.mk "C" "" (Some 4)) (Interval.mk "P" 15)
    = Raise (KeyErrorInt 0) /\
  (Interval.step (Interval.mk "P" 15) = Raise (KeyErrorInt 0) \/
   exists text, KeyErrorInt 0 = InvalidPitch text).
Proof.
  assert (Hc : Pitch.constructed (Pitch.mk "C" "" (Some 4)))
    by (exists "C4"; reflexivity).
  split; [reflexivity|].
  exact (add_errors (Pitch.mk "C" "" (Some 4)) (Interval.mk "P" 15)
           (KeyErrorInt 0) Hc eq_refl).
Defined.

Lemma list_index_sound (l : ascii) (k : Z) :
  Pitch.list_index Pitch.LETTERS l = Ok k ->
  Pitch.list_getitem Pitch.LETTERS k = Ok l /\ 0 <= k < 7.
Proof.
  unfold Pitch.list_index, Pitch.LETTERS. cbn [Pitch.index_from].
  repeat match goal with
  | |- context [Ascii.eqb ?x l] =>
      destruct (Ascii.eqb_spec x l) as [<-|_];
        [intros [= <-]; split; [reflexivity|lia]|]
  end.
  discriminate.
Qed.

(** A run is determined by its sharps minus its flats. *)
Lemma run_unique (n n' : nat) (c c' : ascii) :
  c = "#"%char \/ c = "b"%char ->
  c' = "#"%char \/ c' = "b"%char ->
  count "#" (replicate n c) - count "b" (replicate n c) =
  count "#" (replicate n' c') - count "b" (replicate n' c') ->
  replicate n c = replicate n' c'.
Proof.
  intros [-> | ->] [-> | ->]; rewrite !count_replicate;
    change (Ascii.eqb "#" "b") with false;
    change (Ascii.eqb "b" "#") with false;
    rewrite ?Ascii.eqb_refl; intros H.
  - f_equal. lia.
  - assert (n = 0%nat /\ n' = 0%nat) as [-> ->] by lia. reflexivity.
  - assert (n = 0%nat /\ n' = 0%nat) as [-> ->] by lia. reflexivity.
  - f_equal. lia.
Qed.

(** X17: an interval whose degree is 1 modulo 7 and whose step is a
    multiple of 12 (as those of [P8], step 12, and of [P1], step -12) keeps
    the letter and the accidental of a constructed pitch whose step is
    within 0..11: a pitch with no octave is returned as it is, and an octave
    [m] from 1 to 7 becomes [m + step // 12] when that is within 0..7. *)
Theorem add_whole_octaves (p : Pitch.t) (i : Interval.t) (s vs : Z) :
  Pitch.constructed p ->
  Pitch.step p = Ok s -> 0 <= s < 12 ->
  Interval.step i = Ok vs -> vs mod 12 = 0 ->
  Interval.degree i mod 7 = 1 ->
  (Pitch.octave p = None -> Pitch.add p i = Ok p) /\
  (forall m, Pitch.octave p = Some m -> m <> 0 ->
     0 <= m + vs / 12 <= 7 ->
     Pitch.add p i =
       Ok (Pitch.mk (Pitch.letter p) (Pitch.accidental p)
             (Some (m + vs / 12)))).
Proof.
  intros Hc Hs Hrange Hvs Hmul Hdeg.
  destruct (add_eq p i s vs Hc Hs Hvs)
    as (k & l & b & run & Hk & Hli & Hb & (n & c & Hcc & ->) & Hst & E).
  destruct (constructed_fields p Hc) as (_ & (n' & Ha) & _).
  assert (Hmod : (s + vs) mod 12 = s /\ (s + vs) / 12 = vs / 12)
    by (Z.to_euclidean_division_equations; lia).
  destruct Hmod as [Hmod Hdiv]. rewrite Hmod in Hst. rewrite Hdiv in E.
  destruct (list_index_sound _ _ Hk) as [Hgk Hkr].
  assert (Hj : (k + Interval.degree i - 1) mod 7 = k)
    by (Z.to_euclidean_division_equations; lia).
  rewrite Hj in Hli. destruct (list_index_sound _ _ Hli) as [Hgl _].
  assert (Hl : l = Pitch.letter p) by congruence. subst l.
  assert (Hrun : replicate n c = Pitch.accidental p).
  { unfold Pitch.step, Pitch.getitem in Hs. rewrite Hb in Hs.
    cbn [bind] in Hs. injection Hs as Hs.
    destruct Ha as [Ha | Ha]; rewrite Ha in Hs |- *;
      apply run_unique; auto; lia. }
  rewrite Hrun in E. split.
  - intros Ho. rewrite Ho in E. rewrite E. destruct p; cbn in *. now subst.
  - intros m Ho Hm Hb'. rewrite Ho in E. rewrite E.
    unfold Pitch.truthy. destruct (Z.eqb_spec m 0); [contradiction|].
    cbn [negb].
    destruct (Z.leb_spec 0 (m + vs / 12)), (Z.leb_spec (m + vs / 12) 7);
      try lia. reflexivity.
Qed.

(** [Pitch("Eb4") + Interval("P8")] is [Pitch("Eb5")]; with [Interval("P1")],
    whose step is -12, it is [Pitch("Eb3")]. *)
Lemma add_whole_octaves_witness :
  Pitch.add (Pitch.mk "E" "b" (Some 4)) (Interval.mk "P" 8)
    = Ok (Pitch.mk "E" "b" (Some 5)) /\
  Pitch.add (Pitch.mk "E" "b" (Some 4)) (Interval.mk "P" 1)
    = Ok (Pitch.mk "E" "b" (Some 3)).
Proof.
  assert (Hc : Pitch.constructed (Pitch.mk "E" "b" (Some 4)))
    by (exists "Eb4"; reflexivity).
  split.
  - exact (proj2 (add_whole_octaves (Pitch.mk "E" "b" (Some 4))
                    (Interval.mk "P" 8) 3 12 Hc eq_refl ltac:(lia) eq_refl
                    eq_refl eq_refl)
             4 eq_refl ltac:(lia) ltac:(simpl; lia)).
  - exact (proj2 (add_whole_octaves (Pitch.mk "E" "b" (Some 4))
                    (Interval.mk "P" 1) 3 (-12) Hc eq_refl ltac:(lia) eq_refl
                    eq_refl eq_refl)
             4 eq_refl ltac:(lia) ltac:(simpl; lia)).
Defined.

(** ** The grammar of intervals and the errors of [step] *)

(** X18: on a text of the model (characters below code point 256),
    [Interval.parse] returns a pair exactly when the text is one character
    of the class followed by one to 4300 decimal digits, unless the quality
    is [P] and the degree is not 1, 4 or 5 modulo 7; the pair is the quality,
    with [+] and [-] replaced by [A] and [D], and the value of the digits.
    It raises exactly when the text is one character of the class followed
    by more than 4300 decimal digits, and the error is that of [int]. *)
Theorem interval_parse_grammar (v : string) :
  (forall (a : ascii) (d : Z),
     Interval.parse v = Ok (Some (a, d)) <->
     exists (q : ascii) (ds : string),
       v = String q ds /\ Interval.quality_char q = true /\
       (0 < String.length ds)%nat /\ all_digits ds = true /\
       Z.of_nat (String.length ds) <= 4300 /\
       d = int_value ds /\
       a = (if Ascii.eqb q "+" then "A"%char
            else if Ascii.eqb q "-" then "D"%char else q) /\
       (a = "P"%char -> mem (d mod 7) [1; 4; 5] = true)) /\
  (forall e : exn,
     Interval.parse v = Raise e <->
     exists (q : ascii) (ds : string),
       v = String q ds /\ Interval.quality_char q = true /\
       all_digits ds = true /\
       4300 < Z.of_nat (String.length ds) /\
       e = IntTooManyDigits (Z.of_nat (String.length ds))).
Proof.
  split.
  - intros a d. split.
    + intros Hp.
      apply interval_parse_inv in Hp
        as (q & ds & -> & Hq & Hne & Hds & Hle & -> & -> & HP).
      exists q, ds. repeat split; try assumption.
      destruct ds; [contradiction | simpl; lia].
    + intros (q & ds & -> & Hq & Hlen & Hds & Hle & -> & -> & HP).
      unfold Interval.parse. rewrite Hq, Hds.
      destruct ds as [|c r]; [simpl in Hlen; lia|].
      change (String.eqb (String c r) "") with false. cbn [negb andb].
      rewrite (int_within_limit _ Hle). cbn [bind].
      destruct (Ascii.eqb_spec
                  (if Ascii.eqb q "+" then "A"%char
                   else if Ascii.eqb q "-" then "D"%char else q) "P")
        as [E|_]; [|now rewrite andb_false_r].
      now rewrite (HP E).
  - intros e. split.
    + unfold Interval.parse. destruct v as [|q ds]; [discriminate|].
      destruct (Interval.quality_char q) eqn:Hq; [|discriminate].
      destruct (String.eqb ds ""); [discriminate|].
      destruct (all_digits ds) eqn:Hds; [|discriminate].
      cbn [negb andb].
      destruct (Z.le_gt_cases (Z.of_nat (String.length ds)) 4300) as [Hle|Hgt].
      * rewrite (int_within_limit _ Hle). cbn [bind].
        destruct (_ && _); discriminate.
      * rewrite int_past_limit by lia. cbn [bind]. intros [= <-].
        exists q, ds. repeat split; auto; lia.
    + intros (q & ds & -> & Hq & Hds & Hgt & ->).
      unfold Interval.parse. rewrite Hq, Hds.
      destruct ds as [|c r]; [simpl in Hgt; lia|].
      change (String.eqb (String c r) "") with false. cbn [negb andb].
      now rewrite (int_past_limit _ Hgt).
Qed.

(** X19: on a constructed interval, [step] reaches its final [raise]
    exactly when the folded degree is 2, 3, 6 or 7 and the quality is none
    of [M], [m], [A], [D]. *)
Theorem step_value_error_iff (i : Interval.t) :
  Interval.constructed i ->
  (Interval.step i = Raise CantGetStep <->
   mem (Interval.mod_degree i) [2; 3; 6; 7] = true /\
   Interval.accidental i <> "M"%char /\ Interval.accidental i <> "m"%char /\
   Interval.accidental i <> "A"%char /\ Interval.accidental i <> "D"%char).
Proof.
  intros Hc. pose proof (constructed_degree_nonneg i Hc) as Hd.
  pose proof (mod_degree_range i Hd) as Hr.
  unfold Interval.step, Interval.getitem.
  generalize dependent (Interval.mod_degree i). intros m Hm.
  assert (Hcases : m = 0 \/ m = 1 \/ m = 2 \/ m = 3 \/ m = 4 \/ m = 5 \/
                   m = 6 \/ m = 7 \/ m = 8) by lia.
  assert (Hgen : forall b : Z,
    (if Ascii.eqb (Interval.accidental i) "M" then Ok b
     else if Ascii.eqb (Interval.accidental i) "m" then Ok (b - 1)
     else if Ascii.eqb (Interval.accidental i) "A" then Ok (b + 1)
     else if Ascii.eqb (Interval.accidental i) "D" then Ok (b - 2)
     else Raise CantGetStep) = Raise CantGetStep <->
    true = true /\
    Interval.accidental i <> "M"%char /\ Interval.accidental i <> "m"%char /\
    Interval.accidental i <> "A"%char /\ Interval.accidental i <> "D"%char).
  { intros b.
    repeat match goal with
    | |- context [Ascii.eqb ?c ?x] =>
        destruct (Ascii.eqb_spec c x) as [E|?];
          [split; [discriminate | intros (_ & ? & ? & ? & ?); contradiction]|]
    end.
    repeat split; assumption. }
  assert (Hno : forall r : result Z,
    (exists z, r = Ok z) ->
    r = Raise CantGetStep <->
    false = true /\
    Interval.accidental i <> "M"%char /\ Interval.accidental i <> "m"%char /\
    Interval.accidental i <> "A"%char /\ Interval.accidental i <> "D"%char).
  { intros r [z ->]. split; [discriminate | intros [[=] _]]. }
  repeat (destruct Hcases as [-> | Hcases];
    [cbn [Interval.lookup Interval.map Z.eqb Pos.eqb bind mem existsb orb];
     first [ solve [apply Hgen]
           | solve [apply Hno;
                    destruct (Ascii.eqb (Interval.accidental i) "P");
                    [|destruct (Ascii.eqb (Interval.accidental i) "A")]; eauto]
           | solve [split; [discriminate | intros [[=] _]]] ]|]).
  subst m. cbn [Interval.lookup Interval.map Z.eqb Pos.eqb bind mem existsb orb].
  apply Hno. destruct (Ascii.eqb (Interval.accidental i) "P");
    [|destruct (Ascii.eqb (Interval.accidental i) "A")]; eauto.
Qed.

Lemma step_value_error_iff_witness :
  Interval.init ",2" = Ok (Interval.mk "," 2) /\
  Interval.step (Interval.mk "," 2) = Raise CantGetStep.
Proof.
  assert (Hc : Interval.constructed (Interval.mk "," 2))
    by (exists ",2"; reflexivity).
  split; [reflexivity|].
  apply (proj2 (step_value_error_iff _ Hc)).
  repeat split; discriminate.
Defined.

(** X20: [step] returns a number on every constructed interval whose degree
    is from 1 to 8 and whose quality is one of [P], [M], [m], [A], [D]. *)
Theorem step_simple_returns (i : Interval.t) :
  Interval.constructed i ->
  1 <= Interval.degree i <= 8 ->
  In (Interval.accidental i) ["P"; "M"; "m"; "A"; "D"]%char ->
  exists z, Interval.step i = Ok z.
Proof.
  intros Hc Hd Hq. destruct (constructed_quality i Hc) as (_ & _ & _ & HP).
  destruct i as [a d]. cbn [Interval.accidental Interval.degree] in *.
  assert (Hcases : d = 1 \/ d = 2 \/ d = 3 \/ d = 4 \/ d = 5 \/ d = 6 \/
                   d = 7 \/ d = 8) by lia.
  simpl in Hq.
  repeat (destruct Hq as [<- | Hq];
    [repeat (destruct Hcases as [-> | Hcases];
             [first [eexists; reflexivity | now specialize (HP eq_refl)]|]);
     subst d; first [eexists; reflexivity | now specialize (HP eq_refl)]|]).
  contradiction.
Qed.

Lemma step_simple_returns_witness :
  exists z, Interval.step (Interval.mk "D" 5) = Ok z.
Proof.
  apply step_simple_returns;
    [exists "D5"; reflexivity | simpl; lia | simpl; tauto].
Defined.

(** ** Witnesses for the round trip and for the totality of [<] *)

Lemma str_roundtrip_witness :
  Pitch.str (Pitch.mk "F" "##" (Some 7)) = "F##7" /\
  Pitch.init "F##7" = Ok (Pitch.mk "F" "##" (Some 7)).
Proof.
  split; [reflexivity|].
  apply (str_roundtrip (Pitch.mk "F" "##" (Some 7)));
    [exists "f##7"; reflexivity | discriminate].
Defined.

Lemma pitch_lt_total_witness :
  exists b, Pitch.lt (Pitch.mk "A" "bb" None) (Pitch.mk "G" "" (Some 0)) = Ok b.
Proof.
  apply pitch_lt_total; [exists "Abb" | exists "g0"]; reflexivity.
Defined.
